(** * Inventory normalisation and pricing pipeline (scripts/final_file.py)

    A shallow embedding of the pure core of [final_file.py]: the numeric
    token normaliser, the size/unit extractor, the lookup-code resolver,
    the retail price rounder and the transform [process_mapped_items].

    Modelling conventions.
    - A Python [str] is a list of code points restricted to U+0000..U+00FF
      (one [ascii] per code point).  The character classes of Python are
      written out on that range: [str.isspace], [str.isdigit], the regex
      classes [\d] and [[A-Za-z]], and [str.lower].
    - A missing cell ([None], [NaN], [pd.NA]) is [None] in an [option].
    - A binary64 value is [Fin q] for the rational it denotes, or one of the
      special values [NaN], [PInf], [NInf].  Arithmetic on finite values is
      exact: rounding error and range overflow of binary64 are not modelled.
    - Code that can raise returns a [result]; a [try/except] is a match on
      the [option] returned by the guarded call.
    - A data frame is its list of column names and its list of rows; a
      column operation is the corresponding operation on the list.  What
      pandas does with the shape of a frame that has no rows is not
      modelled. *)

From Stdlib Require Import List Bool Ascii String NArith ZArith QArith Qround.
From Stdlib Require Import Lia Lqa Arith Sorted.
Import ListNotations.

Set Implicit Arguments.

(** * Part I: the program *)

(** ** Python strings on the Latin-1 range *)

Module Py.

Definition str := list ascii.

Definition lit (s : string) : str := list_ascii_of_string s.

Definition ord (c : ascii) : N := N_of_ascii c.

Definition between (lo hi : N) (c : ascii) : bool :=
  ((lo <=? ord c) && (ord c <=? hi))%N.

(** [str.isspace] for one code point: TAB..CR, FS..US, SPACE, NEL, NBSP. *)
Definition isspace (c : ascii) : bool :=
  between 9 13 c || between 28 32 c || (ord c =? 133)%N || (ord c =? 160)%N.

(** The regex class [\d] (Unicode category Nd): on this range, 0..9. *)
Definition re_digit (c : ascii) : bool := between 48 57 c.

(** [str.isdigit] for one code point: the decimal digits and the
    superscripts U+00B2, U+00B3, U+00B9. *)
Definition isdigit_char (c : ascii) : bool :=
  re_digit c || (ord c =? 178)%N || (ord c =? 179)%N || (ord c =? 185)%N.

(** The regex class [[A-Za-z]]. *)
Definition re_alpha (c : ascii) : bool := between 65 90 c || between 97 122 c.

Definition nonempty {A} (l : list A) : bool :=
  match l with [] => false | _ :: _ => true end.

(** [s.isdigit()]: at least one character and all of them digits. *)
Definition isdigit (s : str) : bool := nonempty s && forallb isdigit_char s.

(** [str.lower] for one code point: A..Z and the Latin-1 capitals. *)
Definition lower_char (c : ascii) : ascii :=
  if between 65 90 c || between 192 214 c || between 216 222 c
  then ascii_of_N (ord c + 32) else c.

Definition lower (s : str) : str := map lower_char s.

Fixpoint lstrip (s : str) : str :=
  match s with
  | c :: t => if isspace c then lstrip t else s
  | [] => []
  end.

Definition rstrip (s : str) : str := rev (lstrip (rev s)).

(** [s.strip()] *)
Definition strip (s : str) : str := rstrip (lstrip s).

Definition str_eqb (a b : str) : bool :=
  if list_eq_dec ascii_dec a b then true else false.

(** [s.split()]: maximal runs of non-whitespace characters. *)
Fixpoint split (s : str) : list str :=
  match s with
  | [] => []
  | c :: t =>
      if isspace c then split t
      else match t with
           | [] => [[c]]
           | d :: _ =>
               if isspace d then [c] :: split t
               else match split t with
                    | w :: ws => (c :: w) :: ws
                    | [] => [[c]]
                    end
           end
  end.

(** [re.split] on a one-character class: the pieces between separators,
    empty pieces included. *)
Fixpoint re_split (sep : ascii -> bool) (s : str) : list str :=
  match s with
  | [] => [[]]
  | c :: t =>
      if sep c then [] :: re_split sep t
      else match re_split sep t with
           | w :: ws => (c :: w) :: ws
           | [] => [[c]]
           end
  end.

(** [sep.join(ws)] *)
Fixpoint join (sep : str) (ws : list str) : str :=
  match ws with
  | [] => []
  | [w] => w
  | w :: ws' => w ++ sep ++ join sep ws'
  end.

(** Longest prefix whose characters satisfy [p], and the rest. *)
Fixpoint span (p : ascii -> bool) (s : str) : str * str :=
  match s with
  | c :: t => if p c then let (a, b) := span p t in (c :: a, b) else ([], s)
  | [] => ([], [])
  end.

(** [sub in s] *)
Fixpoint startswith (sub s : str) : bool :=
  match sub, s with
  | [], _ => true
  | a :: sub', b :: s' => Ascii.eqb a b && startswith sub' s'
  | _ :: _, [] => false
  end.

Fixpoint contains (sub s : str) : bool :=
  startswith sub s ||
  match s with
  | [] => false
  | _ :: t => contains sub t
  end.

(** Value of a string of decimal digits, most significant first. *)
Definition digit_val (c : ascii) : Z := Z.of_N (ord c) - 48.

Definition digits_value (s : str) : Z :=
  fold_left (fun acc c => 10 * acc + digit_val c)%Z s 0%Z.

(** [int(s)] on the strings the normaliser returns (no sign, blank or
    underscore occurs in them): it succeeds exactly on a non-empty run of
    decimal digits; a superscript digit is a [ValueError], here [None].
    CPython's configurable limit on the length of the literal is not
    modelled. *)
Definition int (s : str) : option Z :=
  if nonempty s && forallb re_digit s then Some (digits_value s) else None.

(** [float(s)] on the strings the size pattern captures, [\d+(?:\.\d+)?]:
    the exact decimal value.  On any other string this model answers
    [None], the [ValueError] of the source's [except] clause. *)
Definition float (s : str) : option Q :=
  let (ds, r) := span re_digit s in
  if nonempty ds then
    match r with
    | [] => Some (inject_Z (digits_value ds))
    | c :: fs =>
        if Ascii.eqb c "."%char && nonempty fs && forallb re_digit fs
        then Some (Qred (Qmake (digits_value (ds ++ fs))
                               (Pos.pow 10 (Pos.of_nat (List.length fs)))))
        else None
    end
  else None.

End Py.

Import Py.

Arguments lit s%_string.

(** ** Numeric token normaliser *)

(** [_INT_OR_WHOLE_FLOAT.fullmatch(s)] for the pattern [^\d+(?:\.0+)?$]. *)
Definition _INT_OR_WHOLE_FLOAT_fullmatch (s : str) : bool :=
  let (ds, r) := span re_digit s in
  nonempty ds &&
  match r with
  | [] => true
  | c :: z => Ascii.eqb c "."%char && nonempty z && forallb (Ascii.eqb "0"%char) z
  end.

(** [s.split('.', 1)[0]] *)
Fixpoint before_first_dot (s : str) : str :=
  match s with
  | [] => []
  | c :: t => if Ascii.eqb c "."%char then [] else c :: before_first_dot t
  end.

(** [normalize_numeric_token(s)].  The argument is [None] for Python's
    [None] and for [pd.NA], whose [str] is ["<NA>"] and ends in the last
    [return None] as well. *)
Definition normalize_numeric_token (s : option str) : option str :=
  match s with
  | None => None
  | Some s =>
      let s := strip s in
      if negb (nonempty s) then None
      else if isdigit s then Some s
      else if _INT_OR_WHOLE_FLOAT_fullmatch s then Some (before_first_dot s)
      else None
  end.

Definition is_list_sep (c : ascii) : bool :=
  Ascii.eqb c ";"%char || Ascii.eqb c ","%char.

Fixpoint first_some {A B} (f : A -> option B) (l : list A) : option B :=
  match l with
  | [] => None
  | a :: l' => match f a with Some b => Some b | None => first_some f l' end
  end.

(** [first_valid_numeric_from_list(s)] *)
Definition first_valid_numeric_from_list (s : option str) : option str :=
  match s with
  | None => None
  | Some s =>
      first_some (fun token => normalize_numeric_token (Some token))
                 (re_split is_list_sep s)
  end.

Arguments normalize_numeric_token : simpl never.
Arguments first_valid_numeric_from_list : simpl never.

(** ** Lookup-code selection *)

(** Python's [a or b] on optional strings: [a] when it is truthy, that is
    neither [None] nor the empty string. *)
Definition py_or (a b : option str) : option str :=
  match a with
  | Some (_ :: _) => a
  | _ => b
  end.

Definition or_empty (a : option str) : str :=
  match a with
  | Some (c :: t) => c :: t
  | _ => []
  end.

(** [x if pd.notna(x) else ""] *)
Definition notna_or_empty (cell : option str) : str :=
  match cell with Some s => s | None => [] end.

(** [int(pc) if pc else None] under [try/except]. *)
Definition int_or_none (pc : str) : option Z :=
  if nonempty pc then Py.int pc else None.

(** [get_lookup_code(row, product_code_col, sku_col)]; the two arguments
    are the cells [row[product_code_col]] and [row[sku_col]]. *)
Definition get_lookup_code (pc_cell sku_cell : option str) : str :=
  let pc_raw := notna_or_empty pc_cell in
  let sku_raw := notna_or_empty sku_cell in
  let pc_str := strip pc_raw in
  let sku_str := strip sku_raw in
  let pc := or_empty (py_or (first_valid_numeric_from_list (Some pc_str))
                            (normalize_numeric_token (Some pc_str))) in
  let sk := or_empty (py_or (first_valid_numeric_from_list (Some sku_str))
                            (normalize_numeric_token (Some sku_str))) in
  let pc_int := int_or_none pc in
  let sk_int := int_or_none sk in
  match pc_int, sk_int with
  | Some a, Some b => if (b <=? a)%Z then pc else sk
  | Some _, None => pc
  | None, Some _ => sk
  | None, None => []
  end.

(** ** Size / unit extraction *)

(** [re.match(r'^(\d+(?:\.\d+)?)([A-Za-z]+)$', t)]: the two groups of the
    match.  Each greedy run is followed by a character outside its class,
    so the first attempt of the backtracking matcher is the only one that
    can succeed.  [$] also holds just before a final newline. *)
Definition size_pattern_match (t : str) : option (str * str) :=
  let (ds, r1) := span re_digit t in
  if nonempty ds then
    let (g1, r2) :=
      match r1 with
      | c :: r =>
          if Ascii.eqb c "."%char then
            let (fs, r') := span re_digit r in
            if nonempty fs then (ds ++ c :: fs, r') else (ds, r1)
          else (ds, r1)
      | [] => (ds, r1)
      end in
    let (ls, r3) := span re_alpha r2 in
    if nonempty ls then
      match r3 with
      | [] => Some (g1, ls)
      | [c] => if (ord c =? 10)%N then Some (g1, ls) else None
      | _ => None
      end
    else None
  else None.

Definition allowed : list str :=
  [lit "g"; lit "lb"; lit "gr"; lit "kg"; lit "pk"; lit "pack"; lit "each";
   lit "oz"; lit "mg"; lit "ml"; lit "l"].

(** [unit in allowed] *)
Definition in_allowed (unit : str) : bool := existsb (str_eqb unit) allowed.

(** [try: num = float(g) except ValueError: num = 1] *)
Definition float_or_1 (g : str) : Q :=
  match Py.float g with Some q => q | None => 1 end.

(** The body shared by the two rules: match the token, parse the number,
    lower the unit and test it against the vocabulary. *)
Definition size_of_token (t : str) : option (Q * str) :=
  match size_pattern_match t with
  | Some (g1, g2) =>
      let num := float_or_1 g1 in
      let unit := lower g2 in
      if in_allowed unit then Some (num, unit) else None
  | None => None
  end.

(** [words[-1]], [words[-2]] and the slices [words[:-1]], [words[:-2]]. *)
Definition word_m1 (words : list str) : str := last words [].
Definition word_m2 (words : list str) : str :=
  nth (List.length words - 2) words [].
Definition upto_m1 (words : list str) : list str :=
  firstn (List.length words - 1) words.
Definition upto_m2 (words : list str) : list str :=
  firstn (List.length words - 2) words.

(** [extract_size_and_unit(name)]; [None] is a name that is not a [str]. *)
Definition extract_size_and_unit (name : option str) : option str * Q * str :=
  match name with
  | None => (name, 1, lit "each")
  | Some n =>
      let words := split (strip n) in
      if negb (nonempty words) then (name, 1, lit "each")
      else
        let rule1 :=
          if str_eqb (lower (word_m1 words)) (lit "each")
             && (2 <=? List.length words)
          then match size_of_token (word_m2 words) with
               | Some (num, unit) =>
                   Some (Some (join (lit " ") (upto_m2 words)), num, unit)
               | None => None
               end
          else None in
        match rule1 with
        | Some r => r
        | None =>
            match size_of_token (word_m1 words) with
            | Some (num, unit) =>
                (Some (join (lit " ") (upto_m1 words)), num, unit)
            | None => (name, 1, lit "each")
            end
        end
  end.

Arguments extract_size_and_unit : simpl never.

(** ** Retail rounding *)

Local Open Scope Q_scope.

(** A binary64 value: a finite value, as the rational it denotes, or one of
    the three special values. *)
Inductive pyfloat : Type :=
| Fin (q : Q)
| NaN
| PInf
| NInf.

Inductive exn : Type :=
| KeyError (missing : list string)
| OverflowError.

Inductive result (A : Type) : Type :=
| Ok (a : A)
| Raise (e : exn).

Arguments Ok {A} a.
Arguments Raise {A} e.

Definition cents : list Q := [29 # 100; 49 # 100; 79 # 100; 99 # 100].

(** The literal [1e-9]. *)
Definition epsilon : Q := 1 # 1000000000.

(** Nearest integer, ties to the even one. *)
Definition round_half_even (q : Q) : Z :=
  let f := Qfloor q in
  match Qcompare (q - inject_Z f)%Q (1 # 2)%Q with
  | Lt => f
  | Gt => (f + 1)%Z
  | Eq => if Z.even f then f else (f + 1)%Z
  end.

(** [round(q, 2)]: the nearest multiple of 1/100 of the exact value. *)
Definition round2 (q : Q) : Q := Qmake (round_half_even (q * 100)%Q) 100.

(** The [for c in cents] loop: the first [c] whose test succeeds. *)
Fixpoint first_candidate (fractional : Q) (cs : list Q) : option Q :=
  match cs with
  | [] => None
  | c :: cs' =>
      if Qle_bool fractional (c + epsilon) then Some c
      else first_candidate fractional cs'
  end.

(** [retail_round(x)].  [pd.isna] holds of [NaN] only; [math.floor]
    raises [OverflowError] on an infinity. *)
Definition retail_round (x : pyfloat) : result pyfloat :=
  match x with
  | NaN => Ok NaN
  | PInf | NInf => Raise OverflowError
  | Fin q =>
      let base := Qfloor q in
      let fractional := q - inject_Z base in
      match first_candidate fractional cents with
      | Some c => Ok (Fin (round2 (inject_Z base + c)))
      | None => Ok (Fin (round2 (inject_Z base + 1 + (29 # 100))))
      end
  end.

(** ** The transform *)

Module Raw.
(** A row of the input frame.  [code] and [sku] are read with the string
    dtype; [price] is the cell after [pd.to_numeric(..., errors="coerce")];
    [unit_count] is read only when the frame has that column. *)
Record t : Type := mk {
  name : option str;
  code : option str;
  sku : option str;
  price : pyfloat;
  priceType : option str;
  unit_count : option Z
}.
End Raw.

Module Canon.
(** A row of the output frame. *)
Record t : Type := mk {
  cost_price_per_unit : pyfloat;
  cost_unit : str;
  lookup_code : str;
  name : option str;
  size : Q;
  size_uom : str;
  unit_count : option Z;
  alcoholic : bool
}.
End Canon.

Record DataFrame : Type := {
  columns : list string;
  rows : list Raw.t
}.

Definition required : list string :=
  ["name"; "code"; "sku"; "price"; "priceType"]%string.

(** [c in df.columns] *)
Definition has_column (df : DataFrame) (c : string) : bool :=
  existsb (String.eqb c) (columns df).

(** [astype(str)] / [str(x)] of a cell: a missing cell of an object column
    is the float NaN, whose text is "nan".  (A missing cell of a string
    column is [pd.NA], whose text is "<NA>"; the source tests those cells
    with [isna] first, and neither text is blank.) *)
Definition astype_str (cell : option str) : str :=
  match cell with Some s => s | None => lit "nan" end.

Definition isna {A} (cell : option A) : bool :=
  match cell with Some _ => false | None => true end.

(** [str.contains(r'case|dozen', case=False, na=False)].  The pattern is
    made of lower-case letters; on this range the only characters that
    [lower] sends to one of them are the letter and its capital. *)
Definition contains_case_or_dozen (s : str) : bool :=
  contains (lit "case") (lower s) || contains (lit "dozen") (lower s).

(** Stage A *)
Definition stage_A (df : list Raw.t) : list Raw.t :=
  filter (fun r => negb (contains_case_or_dozen (astype_str (Raw.name r)))) df.

(** [col.isna() | (col.astype(str).str.strip() == "")] *)
Definition blank_cell (cell : option str) : bool :=
  isna cell || str_eqb (strip (astype_str cell)) [].

Definition _valid_row (r : Raw.t) : bool :=
  let code_is_blank :=
    isna (Raw.code r) || str_eqb (strip (astype_str (Raw.code r))) [] in
  negb (code_is_blank && isna (normalize_numeric_token (Raw.sku r))).

(** Stage B: the two successive filters of the source. *)
Definition stage_B (df_f : list Raw.t) : list Raw.t :=
  let df_f :=
    filter (fun r => negb (blank_cell (Raw.code r) && blank_cell (Raw.sku r)))
           df_f in
  filter _valid_row df_f.

(** [x * 1.13] *)
Definition markup (x : pyfloat) : pyfloat :=
  match x with
  | Fin q => Fin (q * (113 # 100))
  | other => other
  end.

Definition map_cost_unit (x : option str) : str :=
  let s := lower (strip (astype_str x)) in
  if existsb (str_eqb s)
       [lit "fixed"; lit "fix"; lit "fixed price"; lit "fixed_price";
        lit "fixedprice"]
  then lit "each"
  else if existsb (str_eqb s) [lit "per unit"; lit "per_unit"; lit "perunit"]
  then lit "lb"
  else [].

Definition bind {A B} (m : result A) (k : A -> result B) : result B :=
  match m with
  | Ok a => k a
  | Raise e => Raise e
  end.

Fixpoint mapM {A B} (f : A -> result B) (l : list A) : result (list B) :=
  match l with
  | [] => Ok []
  | a :: l' => bind (f a) (fun b => bind (mapM f l') (fun bs => Ok (b :: bs)))
  end.

(** Stages C, D and E for one row.  The source fills the columns one at a
    time; [retail_round] is the only step that can raise, so the exception
    of the column-wise program is the one of the first row that raises. *)
Definition derive (has_unit_count : bool) (r : Raw.t) : result Canon.t :=
  bind (retail_round (markup (Raw.price r))) (fun cost =>
    let '(cleaned, size, uom) := extract_size_and_unit (Raw.name r) in
    let unit_count := if has_unit_count then Raw.unit_count r else None in
    let mask_pk := str_eqb uom (lit "pk") || str_eqb uom (lit "pack") in
    let to_fill := isna unit_count in
    Ok {| Canon.cost_price_per_unit := cost;
          Canon.cost_unit := map_cost_unit (Raw.priceType r);
          Canon.lookup_code := get_lookup_code (Raw.code r) (Raw.sku r);
          Canon.name := cleaned;
          Canon.size := if mask_pk then 1 else size;
          Canon.size_uom := uom;
          Canon.unit_count :=
            if mask_pk && to_fill then Some (round_half_even size)
            else unit_count;
          Canon.alcoholic := false |}).

(** Stage F *)
Definition stage_F (out : list Canon.t) : list Canon.t :=
  filter (fun o => negb (str_eqb (strip (Canon.lookup_code o)) [])) out.

(** [pd.to_numeric(...).fillna(float("-inf"))] *)
Definition _price_for_rank (o : Canon.t) : pyfloat :=
  match Canon.cost_price_per_unit o with
  | NaN => NInf
  | v => v
  end.

(** [a < b] and [a == b] on binary64 values. *)
Definition flt (a b : pyfloat) : bool :=
  match a, b with
  | NaN, _ | _, NaN => false
  | Fin p, Fin q => negb (Qle_bool q p)
  | NInf, NInf => false
  | NInf, _ => true
  | _, NInf => false
  | PInf, _ => false
  | Fin _, PInf => true
  end.

Definition feq (a b : pyfloat) : bool :=
  match a, b with
  | Fin p, Fin q => Qeq_bool p q
  | PInf, PInf => true
  | NInf, NInf => true
  | _, _ => false
  end.

Definition same_group (a b : Canon.t) : bool :=
  str_eqb (Canon.lookup_code a) (Canon.lookup_code b).

Definition count {A} (p : A -> bool) (l : list A) : nat :=
  List.length (filter p l).

(** [groupby("lookup_code")["_price_for_rank"].rank(method="first",
    ascending=False)] at row [i]: one plus the rows of the group with a
    greater price, plus the earlier rows of the group with an equal one. *)
Definition _rank (work : list Canon.t) (i : nat) (o : Canon.t) : nat :=
  (1 + count (fun o' => same_group o' o
                        && flt (_price_for_rank o) (_price_for_rank o')) work
     + count (fun o' => same_group o' o
                        && feq (_price_for_rank o') (_price_for_rank o))
             (firstn i work))%nat.

(** [enumerate(l, start)]: each row with its position. *)
Fixpoint enumerate_from {A} (start : nat) (l : list A) : list (nat * A) :=
  match l with
  | [] => []
  | a :: l' => (start, a) :: enumerate_from (S start) l'
  end.

Definition enumerate {A} (l : list A) : list (nat * A) := enumerate_from 0 l.

(** Stage G: keep the rows of rank 1, in their order. *)
Definition stage_G (out : list Canon.t) : list Canon.t :=
  map snd (filter (fun io => (_rank out (fst io) (snd io) =? 1)%nat)
                  (enumerate out)).

(** [process_mapped_items], from the frame that [read_excel] returns. *)
Definition process_mapped_items (df : DataFrame) : result (list Canon.t) :=
  let missing := filter (fun c => negb (has_column df c)) required in
  if nonempty missing then Raise (KeyError missing)
  else
    let df_f := stage_A (rows df) in
    let df_f := stage_B df_f in
    bind (mapM (derive (has_column df "unit_count")) df_f) (fun out =>
      let out := stage_F out in
      Ok (stage_G out)).

(** ** Writing the feed (save_outputs) *)

Definition dquote : ascii := ascii_of_N 34.

(** [f'="{s}"'], the text that keeps a spreadsheet from reading the code
    as a number. *)
Definition csv_lookup_code (s : str) : str :=
  lit "=" ++ dquote :: s ++ [dquote].

Definition set_lookup_code (o : Canon.t) (c : str) : Canon.t :=
  {| Canon.cost_price_per_unit := Canon.cost_price_per_unit o;
     Canon.cost_unit := Canon.cost_unit o;
     Canon.lookup_code := c;
     Canon.name := Canon.name o;
     Canon.size := Canon.size o;
     Canon.size_uom := Canon.size_uom o;
     Canon.unit_count := Canon.unit_count o;
     Canon.alcoholic := Canon.alcoholic o |}.

(** [df_csv]: the copy of the frame whose [lookup_code] column is wrapped;
    the frame written to the workbook is [df_out] itself. *)
Definition df_csv (df_out : list Canon.t) : list Canon.t :=
  map (fun o => set_lookup_code o (csv_lookup_code (Canon.lookup_code o))) df_out.

(** ** Paging through the inventory (getAllInvItems.py) *)

Section Inventory.

(** An item of the API, and the list of elements that the API returns for
    an offset and a limit. *)
Variable item : Type.
Variable server : nat -> nat -> list item.

(** [get_items(offset=..., limit=...)], with [BASE_URL] configured: the
    limit sent is capped at 1000. *)
Definition get_items (offset limit : nat) : list item :=
  server offset (Nat.min limit 1000).

(** [iter_all_items(batch_size)], the items it yields in order.  [fuel]
    bounds the number of requests; [None] is a run that needs more. *)
Fixpoint iter_all_items_from (fuel offset batch_size : nat) : option (list item) :=
  match fuel with
  | O => None
  | S fuel' =>
      let chunk := get_items offset batch_size in
      if negb (nonempty chunk) then Some []
      else if (List.length chunk <? batch_size)%nat then Some chunk
      else option_map (app chunk)
             (iter_all_items_from fuel' (offset + batch_size) batch_size)
  end.

Definition iter_all_items (fuel batch_size : nat) : option (list item) :=
  iter_all_items_from fuel 0 batch_size.

End Inventory.

(** ** Orders and product names (getOrdersForL3Mos.py) *)

Section Orders.

(** An order of the API; [createdTime o] is [o.get("createdTime", 0)];
    [server start_ms end_ms offset limit] is the list of elements returned
    for the two filters, the offset and the limit. *)
Variable order : Type.
Variable createdTime : order -> Z.
Variable server : Z -> Z -> nat -> nat -> list order.

Definition in_range (start_ms end_ms : Z) (o : order) : bool :=
  ((start_ms <=? createdTime o) && (createdTime o <? end_ms))%Z.

(** [iter_orders_in_range(start_ms, end_ms, batch_size)] *)
Fixpoint iter_orders_in_range_from (fuel offset : nat) (start_ms end_ms : Z)
    (batch_size : nat) : option (list order) :=
  match fuel with
  | O => None
  | S fuel' =>
      let orders := server start_ms end_ms offset (Nat.min batch_size 1000) in
      if negb (nonempty orders) then Some []
      else
        let yielded := filter (in_range start_ms end_ms) orders in
        if (List.length orders <? batch_size)%nat then Some yielded
        else option_map (app yielded)
               (iter_orders_in_range_from fuel' (offset + batch_size)
                                          start_ms end_ms batch_size)
  end.

Definition iter_orders_in_range (fuel : nat) (start_ms end_ms : Z)
    (batch_size : nat) : option (list order) :=
  iter_orders_in_range_from fuel 0 start_ms end_ms batch_size.

End Orders.

(** A line item: [linked_name] is [(li.get("item") or {}).get("name")] and
    [own_name] is [li.get("name")]; names are strings or missing. *)
Record LineItem : Type := {
  linked_name : option str;
  own_name : option str
}.

Section ProductNames.

(** [line_items o] is the list that the loop body computes from
    [order.get("lineItems")]. *)
Variable order : Type.
Variable line_items : order -> list LineItem.

(** [name in seen] *)
Definition in_seen (name : str) (seen : list str) : bool :=
  existsb (str_eqb name) seen.

(** The inner loop: the names yielded and the set [seen] afterwards;
    [seen] is [None] when [unique_only] is false. *)
Fixpoint names_of_line_items (seen : option (list str)) (lis : list LineItem)
    : list str * option (list str) :=
  match lis with
  | [] => ([], seen)
  | li :: lis' =>
      match py_or (linked_name li) (own_name li) with
      | Some (c :: t) =>
          let name := c :: t in
          match seen with
          | Some s =>
              if in_seen name s then names_of_line_items seen lis'
              else let (ys, seen') := names_of_line_items (Some (name :: s)) lis' in
                   (name :: ys, seen')
          | None =>
              let (ys, seen') := names_of_line_items None lis' in
              (name :: ys, seen')
          end
      | _ => names_of_line_items seen lis'
      end
  end.

(** The outer loop over the orders. *)
Fixpoint names_of_orders (seen : option (list str)) (orders : list order)
    : list str :=
  match orders with
  | [] => []
  | o :: orders' =>
      let lis := line_items o in
      if negb (nonempty lis) then names_of_orders seen orders'
      else let (ys, seen') := names_of_line_items seen lis in
           ys ++ names_of_orders seen' orders'
  end.

(** [iter_product_names], from the orders that [iter_orders_in_range]
    yields. *)
Definition iter_product_names (orders : list order) (unique_only : bool)
    : list str :=
  names_of_orders (if unique_only then Some [] else None) orders.

End ProductNames.

(** ** Retrying a request (getOrdersForL3Mos.py) *)

(** What one call of [requests.request] does: it raises a
    [RequestException], or returns a response with a status code and,
    possibly, a [Retry-After] header. *)
Inductive outcome : Type :=
| RequestException
| Response (status_code : nat) (retry_after : option str).

(** How [request_with_retries] ends. *)
Inductive ending : Type :=
| ReRaised
| HTTPError (status_code : nat)
| ValueError
| Returned (status_code : nat).

Definition MAX_RETRIES : nat := 5.

(** [RETRY_BASE_DELAY * (2 ** (attempt - 1))] *)
Definition backoff (attempt : nat) : Q := 1 * inject_Z (2 ^ Z.of_nat (attempt - 1)).

Definition retryable (status_code : nat) : bool :=
  existsb (Nat.eqb status_code) [429; 500; 502; 503; 504]%nat.

(** [resp.raise_for_status()] raises for the codes 400..599. *)
Definition raises_for_status (status_code : nat) : bool :=
  ((400 <=? status_code) && (status_code <? 600))%nat.

(** [request_with_retries]: the requests are answered by the outcomes of
    [world] in turn.  The result is the ending, the delays slept, in order,
    and the number of requests made; [None] when [world] is used up. *)
Fixpoint request_with_retries_from (world : list outcome) (attempt : nat)
    : option (ending * list Q * nat) :=
  match world with
  | [] => None
  | w :: world' =>
      let again delay :=
        match request_with_retries_from world' (S attempt) with
        | Some (e, sleeps, n) => Some (e, delay :: sleeps, S n)
        | None => None
        end in
      match w with
      | RequestException =>
          let attempt := S attempt in
          if (MAX_RETRIES <? attempt)%nat then Some (ReRaised, [], 1%nat)
          else again (backoff attempt)
      | Response status_code retry_after =>
          if retryable status_code then
            let attempt := S attempt in
            if (MAX_RETRIES <? attempt)%nat
            then Some (HTTPError status_code, [], 1%nat)
            else
              match retry_after with
              | Some (c :: t) =>
                  if isdigit (c :: t) then
                    match Py.int (c :: t) with
                    | Some n => again (inject_Z n)
                    | None => Some (ValueError, [], 1%nat)
                    end
                  else again (backoff attempt)
              | _ => again (backoff attempt)
              end
          else if raises_for_status status_code
          then Some (HTTPError status_code, [], 1%nat)
          else Some (Returned status_code, [], 1%nat)
      end
  end.

Definition request_with_retries (world : list outcome)
    : option (ending * list Q * nat) :=
  request_with_retries_from world 0.

(** * Part II: the notions the properties are stated with *)

(** Neither the first nor the last character of [t] is a blank. *)
Definition no_blank_ends (t : str) : Prop :=
  match t with [] => True | c :: _ => isspace c = false end /\
  match rev t with [] => True | c :: _ => isspace c = false end.

(** The token one side yields: the first valid token of the list, or else
    the whole trimmed string normalised. *)
Definition side_token (cell : option str) : option str :=
  let s := strip (notna_or_empty cell) in
  match first_valid_numeric_from_list (Some s) with
  | Some t => Some t
  | None => normalize_numeric_token (Some s)
  end.

(** The numeric value of a side, when its token has one. *)
Definition side_value (cell : option str) : option Z :=
  match side_token cell with
  | Some t => Py.int t
  | None => None
  end.

(** A non-empty run of the decimal digits 0..9. *)
Definition digit_string (d : str) : Prop :=
  nonempty d = true /\ forallb re_digit d = true.

(** The code side wins when the sku side has no value or one that is not
    larger; the sku side wins when the code side has no value or a
    strictly smaller one. *)
Definition code_wins (code sku : option str) : Prop :=
  exists a, side_value code = Some a /\
            match side_value sku with Some b => (b <= a)%Z | None => True end.

(** See [code_wins]. *)
Definition sku_wins (code sku : option str) : Prop :=
  exists b, side_value sku = Some b /\
            match side_value code with Some a => (a < b)%Z | None => True end.

(** A non-empty run of the letters A..Z, a..z. *)
Definition letters (ls : str) : Prop :=
  nonempty ls = true /\ forallb re_alpha ls = true.

(** Digits, optionally followed by a point and digits. *)
Inductive decimal_text : str -> Prop :=
| dec_int ds : digit_string ds -> decimal_text ds
| dec_frac ds fs :
    digit_string ds -> digit_string fs ->
    decimal_text (ds ++ "."%char :: fs).

(** [t] is digits-then-letters, its letters lowered are the allowed unit
    [unit], and its numeric part parses to [num]. *)
Definition size_token (t : str) (num : Q) (unit : str) : Prop :=
  exists g ls, t = g ++ ls /\ decimal_text g /\ letters ls /\
               Py.float g = Some num /\ unit = lower ls /\ In unit allowed.

(** No character of [w] is a blank. *)
Definition no_space (w : str) : bool := forallb (fun c => negb (isspace c)) w.

(** Rule 1: the last word is "each" in any case, there is a word before
    it, that word is a size token with an allowed unit; both words go. *)
Definition rule1 (name : str) (res : option str * Q * str) : Prop :=
  exists ws t e num unit,
    split (strip name) = ws ++ [t; e] /\ lower e = lit "each" /\
    size_token t num unit /\
    res = (Some (join (lit " ") ws), num, unit).

(** Rule 2: the last word alone is a size token with an allowed unit. *)
Definition rule2 (name : str) (res : option str * Q * str) : Prop :=
  exists ws t num unit,
    split (strip name) = ws ++ [t] /\ size_token t num unit /\
    res = (Some (join (lit " ") ws), num, unit).

(** The first [if] of the source, as the result it returns, if any. *)
Definition rule1_code (words : list str) : option (option str * Q * str) :=
  if str_eqb (lower (word_m1 words)) (lit "each") && (2 <=? List.length words)
  then match size_of_token (word_m2 words) with
       | Some (num, unit) =>
           Some (Some (join (lit " ") (upto_m2 words)), num, unit)
       | None => None
       end
  else None.

(** The second match of the source, on a non-empty word list. *)
Definition rule2_code (words : list str) : option (option str * Q * str) :=
  if nonempty words
  then match size_of_token (word_m1 words) with
       | Some (num, unit) =>
           Some (Some (join (lit " ") (upto_m1 words)), num, unit)
       | None => None
       end
  else None.

(** A cell is blank when it is absent or holds only blanks. *)
Definition blank (cell : option str) : Prop :=
  match cell with
  | None => True
  | Some s => forallb isspace s = true
  end.

(** What Stage B drops, in the words of the specification. *)
Definition dropped_by_B (r : Raw.t) : Prop :=
  (blank (Raw.code r) /\ blank (Raw.sku r)) \/
  (blank (Raw.code r) /\ normalize_numeric_token (Raw.sku r) = None).

(** The two tests of Stage B as one. *)
Definition keep_B (r : Raw.t) : bool :=
  negb (blank_cell (Raw.code r) && blank_cell (Raw.sku r)) && _valid_row r.

(** Row [i] of [out], the record [o], wins its group: no row of the group
    has a greater ranking price, and no earlier row of the group has an
    equal one.  The ranking price of a missing price is minus infinity. *)
Definition winner (out : list Canon.t) (i : nat) (o : Canon.t) : Prop :=
  nth_error out i = Some o /\
  forall j o', nth_error out j = Some o' ->
    Canon.lookup_code o' = Canon.lookup_code o ->
    flt (_price_for_rank o) (_price_for_rank o') = false /\
    ((j < i)%nat -> feq (_price_for_rank o') (_price_for_rank o) = false).

(** A frame with a duplicated code, a code that is no number and a code
    with leading zeros. *)
Definition example_frame : DataFrame :=
  let row n c p := {| Raw.name := Some n; Raw.code := c;
                      Raw.sku := None; Raw.price := Fin p;
                      Raw.priceType := Some (lit "fixed");
                      Raw.unit_count := None |} in
  {| columns := required;
     rows := [row (lit "Rice 5lb") (Some (lit "500")) (28 # 10);
              row (lit "Rice 5lb") (Some (lit "500")) (46 # 10);
              row (lit "Salt") (Some (lit "abc")) 1;
              row (lit "Tea 20pk") (Some (lit "007")) 3] |}.

(** A row whose code is not blank and not a number, and whose sku is
    missing. *)
Definition unresolved_row : Raw.t :=
  {| Raw.name := Some (lit "Rice"); Raw.code := Some (lit "abc");
     Raw.sku := None; Raw.price := Fin 1;
     Raw.priceType := Some (lit "fixed"); Raw.unit_count := None |}.


(** A frame with every required column and one row of infinite price. *)
Definition infinite_price_frame : DataFrame :=
  {| columns := required;
     rows := [ {| Raw.name := Some (lit "Rice"); Raw.code := Some (lit "500");
                  Raw.sku := None; Raw.price := PInf;
                  Raw.priceType := Some (lit "fixed");
                  Raw.unit_count := None |} ] |}.

(** The API serves the slices of one list [db]. *)
Definition serves {A} (db : list A) (server : nat -> nat -> list A) : Prop :=
  forall offset limit, server offset limit = firstn limit (skipn offset db).

(** The names that the line items of the orders carry, in order: the
    linked item's name when it is not empty, else the line item's own. *)
Definition name_of_line_item (li : LineItem) : list str :=
  match py_or (linked_name li) (own_name li) with
  | Some (c :: t) => [c :: t]
  | _ => []
  end.

Definition candidate_names {order} (line_items : order -> list LineItem)
    (orders : list order) : list str :=
  flat_map (fun o => flat_map name_of_line_item (line_items o)) orders.

(** The first occurrence of every element, in order. *)
Fixpoint keep_first (l : list str) : list str :=
  match l with
  | [] => []
  | x :: l' => x :: filter (fun y => negb (str_eqb y x)) (keep_first l')
  end.

(** [y] is not in the set [s]. *)
Definition notin (s : list str) (y : str) : bool := negb (in_seen y s).

(** No outcome of the world carries a [Retry-After] header. *)
Definition no_retry_after (world : list outcome) : Prop :=
  Forall (fun w => match w with
                   | Response _ (Some _) => False
                   | _ => True
                   end) world.

(** * Part III: properties *)

(** ** Numeric token normaliser *)

Example normalize_182 :
  normalize_numeric_token (Some (lit "182")) = Some (lit "182").
Proof. reflexivity. Qed.

Example normalize_182_000 :
  normalize_numeric_token (Some (lit "182.000")) = Some (lit "182").
Proof. reflexivity. Qed.

Example normalize_182_5 :
  normalize_numeric_token (Some (lit "182.5")) = None.
Proof. reflexivity. Qed.

Example normalize_empty :
  normalize_numeric_token (Some (lit "")) = None.
Proof. reflexivity. Qed.

Example first_valid_example :
  first_valid_numeric_from_list (Some (lit "abc;182;99")) = Some (lit "182").
Proof. reflexivity. Qed.

(** *** Facts about the string primitives *)

Lemma span_spec (p : ascii -> bool) (s a b : str) :
  span p s = (a, b) ->
  s = a ++ b /\ forallb p a = true /\
  match b with [] => True | c :: _ => p c = false end.
Proof.
  revert a b; induction s as [|c t IH]; simpl; intros a b H.
  - inversion H; subst; auto.
  - destruct (p c) eqn:Hc.
    + destruct (span p t) as [a' b'] eqn:Ht. inversion H; subst.
      destruct (IH _ _ eq_refl) as (-> & Ha & Hb).
      simpl; rewrite Hc, Ha; auto.
    + inversion H; subst; simpl; auto.
Qed.

Lemma span_app (p : ascii -> bool) (a b : str) :
  forallb p a = true ->
  match b with [] => True | c :: _ => p c = false end ->
  span p (a ++ b) = (a, b).
Proof.
  induction a as [|c a IH]; simpl; intros Ha Hb.
  - destruct b as [|c t]; simpl; [reflexivity | now rewrite Hb].
  - apply andb_prop in Ha as [Hc Ha]. now rewrite Hc, IH.
Qed.

Lemma span_all (p : ascii -> bool) (a : str) :
  forallb p a = true -> span p a = (a, []).
Proof.
  intros H. pose proof (span_app p a [] H I) as E.
  now rewrite app_nil_r in E.
Qed.

Lemma lstrip_spec (s : str) :
  exists l, s = l ++ lstrip s /\ forallb isspace l = true /\
            match lstrip s with [] => True | c :: _ => isspace c = false end.
Proof.
  induction s as [|c t (l & E & Hl & Hh)]; simpl.
  - exists []; auto.
  - destruct (isspace c) eqn:Hc.
    + exists (c :: l); simpl; rewrite Hc, Hl, <- E; auto.
    + exists []; simpl; auto.
Qed.

Lemma lstrip_fixed (s : str) :
  match s with [] => True | c :: _ => isspace c = false end -> lstrip s = s.
Proof. destruct s as [|c t]; simpl; [auto | now intros ->]. Qed.

Lemma forallb_rev {A} (p : A -> bool) (l : list A) :
  forallb p (rev l) = forallb p l.
Proof.
  induction l as [|a l IH]; simpl; [reflexivity|].
  rewrite forallb_app, IH; simpl. rewrite andb_true_r. apply andb_comm.
Qed.

Lemma strip_spec (s : str) :
  exists l r, s = l ++ strip s ++ r /\
              forallb isspace l = true /\ forallb isspace r = true /\
              no_blank_ends (strip s).
Proof.
  unfold strip, rstrip.
  destruct (lstrip_spec s) as (l & E & Hl & Hh).
  destruct (lstrip_spec (rev (lstrip s))) as (r & E' & Hr & Hh').
  exists l, (rev r). repeat split.
  - rewrite <- rev_app_distr, <- E', rev_involutive. exact E.
  - exact Hl.
  - now rewrite forallb_rev.
  - (* the first character survives the right trim *)
    remember (lstrip (rev (lstrip s))) as u eqn:Eu.
    apply (f_equal (@rev ascii)) in E'. rewrite rev_involutive, rev_app_distr in E'.
    destruct (rev u) as [|c t] eqn:Ec; [exact I|].
    rewrite E' in Hh. exact Hh.
  - rewrite rev_involutive. exact Hh'.
Qed.

Lemma strip_fixed (t : str) : no_blank_ends t -> strip t = t.
Proof.
  intros [H1 H2]. unfold strip, rstrip.
  rewrite (lstrip_fixed t H1), (lstrip_fixed (rev t) H2). apply rev_involutive.
Qed.

Lemma strip_idem (s : str) : strip (strip s) = strip s.
Proof.
  destruct (strip_spec s) as (_ & _ & _ & _ & _ & H). now apply strip_fixed.
Qed.

Lemma re_digit_isdigit_char (c : ascii) :
  re_digit c = true -> isdigit_char c = true.
Proof. unfold isdigit_char; now intros ->. Qed.

Lemma forallb_impl {A} (p q : A -> bool) (l : list A) :
  (forall a, p a = true -> q a = true) ->
  forallb p l = true -> forallb q l = true.
Proof.
  intros Hpq; induction l as [|a l IH]; simpl; [auto|].
  intros H; apply andb_prop in H as [Ha Hl]. now rewrite (Hpq _ Ha), IH.
Qed.

Lemma nonempty_app_l {A} (a b : list A) :
  nonempty a = true -> nonempty (a ++ b) = true.
Proof. now destruct a. Qed.

Lemma dot_not_digit (c : ascii) :
  Ascii.eqb c "."%char = true -> isdigit_char c = false.
Proof. intros H; apply Ascii.eqb_eq in H; now subst. Qed.

Lemma before_first_dot_app (d z : str) :
  forallb re_digit d = true -> before_first_dot (d ++ "."%char :: z) = d.
Proof.
  induction d as [|c d IH]; simpl; intros H; [reflexivity|].
  apply andb_prop in H as [Hc Hd].
  destruct (Ascii.eqb c ".") eqn:E.
  - apply Ascii.eqb_eq in E; subst; discriminate.
  - now rewrite IH.
Qed.

Lemma isdigit_app_dot (d z : str) : isdigit (d ++ "."%char :: z) = false.
Proof.
  unfold isdigit. rewrite forallb_app; simpl.
  now rewrite andb_false_r, andb_false_r.
Qed.

(** The whole-float pattern, declaratively: digits, then optionally a
    point and at least one zero. *)
Lemma fullmatch_spec (s : str) :
  _INT_OR_WHOLE_FLOAT_fullmatch s = true <->
  (nonempty s = true /\ forallb re_digit s = true) \/
  (exists d z, s = d ++ "."%char :: z /\
               nonempty d = true /\ forallb re_digit d = true /\
               nonempty z = true /\ forallb (Ascii.eqb "0"%char) z = true).
Proof.
  unfold _INT_OR_WHOLE_FLOAT_fullmatch.
  destruct (span re_digit s) as [ds r] eqn:Es.
  destruct (span_spec _ _ Es) as (-> & Hds & Hr). split.
  - intros H. apply andb_prop in H as [Hne H].
    destruct r as [|c z].
    + left. rewrite app_nil_r. auto.
    + right. apply andb_prop in H as [H Hz]. apply andb_prop in H as [Hc Hnz].
      apply Ascii.eqb_eq in Hc; subst c. exists ds, z; auto.
  - intros [[Hne Hall] | (d & z & E & Hd & Hdd & Hz & Hzz)].
    + destruct r as [|c z].
      * rewrite app_nil_r in Hne. now rewrite Hne.
      * rewrite forallb_app in Hall. apply andb_prop in Hall as [_ Hall].
        simpl in Hall. rewrite Hr in Hall. discriminate.
    + assert (Hsp : span re_digit (d ++ "."%char :: z) = (d, "."%char :: z))
        by (apply span_app; auto).
      rewrite <- E, Es in Hsp. inversion Hsp; subst.
      now rewrite Hd, Hz, Hzz.
Qed.

(** *** The normaliser characterised *)

(** C6. [normalize_numeric_token] answers absent for an absent input;
    otherwise it works on the input with the blanks at both ends removed,
    and it answers a token exactly in two cases: the trimmed string is a
    non-empty all-digit string, which is the answer, or it is digits, a
    point and one or more zeros, and the answer is the digits before the
    point.  Every other shape, the empty string included, is absent.  The
    function is total: no input raises. *)
Theorem normalize_numeric_token_spec :
  normalize_numeric_token None = None /\
  forall s : str,
    (exists l r, s = l ++ strip s ++ r /\
                 forallb isspace l = true /\ forallb isspace r = true /\
                 no_blank_ends (strip s)) /\
    forall out,
      normalize_numeric_token (Some s) = Some out <->
      (isdigit (strip s) = true /\ out = strip s) \/
      (exists d z, strip s = d ++ "."%char :: z /\
                   nonempty d = true /\ forallb re_digit d = true /\
                   nonempty z = true /\ forallb (Ascii.eqb "0"%char) z = true /\
                   out = d).
Proof.
  split; [reflexivity|]. intros s. split; [apply strip_spec|].
  intros out. unfold normalize_numeric_token.
  set (t := strip s).
  destruct (nonempty t) eqn:Hne; simpl.
  - destruct (isdigit t) eqn:Hd.
    + split.
      * intros H; inversion H; auto.
      * intros [[_ ->] | (d & z & E & _)]; [reflexivity|].
        rewrite E, isdigit_app_dot in Hd. discriminate.
    + destruct (_INT_OR_WHOLE_FLOAT_fullmatch t) eqn:Hm.
      * apply fullmatch_spec in Hm as [[_ Hall] | (d & z & E & Hd1 & Hd2 & Hz1 & Hz2)].
        { unfold isdigit in Hd. rewrite Hne in Hd; simpl in Hd.
          rewrite (forallb_impl _ _ _ re_digit_isdigit_char Hall) in Hd.
          discriminate. }
        rewrite E, before_first_dot_app by assumption. split.
        { intros H; inversion H; subst. right. exists out, z; auto 10. }
        intros [[H _] | (d' & z' & E' & _ & Hd' & _ & _ & ->)]; [discriminate|].
        f_equal.
        assert (S1 : span re_digit (d ++ "."%char :: z) = (d, "."%char :: z))
          by (apply span_app; auto).
        assert (S2 : span re_digit (d' ++ "."%char :: z') = (d', "."%char :: z'))
          by (apply span_app; auto).
        rewrite <- E' in S2. congruence.
      * split; [discriminate|].
        intros [[H _] | (d & z & E & Hd1 & Hd2 & Hz1 & Hz2 & _)]; [discriminate|].
        assert (Hm' : _INT_OR_WHOLE_FLOAT_fullmatch t = true)
          by (apply fullmatch_spec; right; exists d, z; auto).
        congruence.
  - split; [discriminate|].
    intros [[H _] | (d & z & E & Hd & _)].
    + unfold isdigit in H. rewrite Hne in H. discriminate.
    + rewrite E in Hne. now rewrite nonempty_app_l in Hne.
Qed.

(** ** Lookup-code selection *)

Example resolve_50_120 :
  get_lookup_code (Some (lit "50")) (Some (lit "120")) = lit "120".
Proof. reflexivity. Qed.

Example resolve_blank_77 :
  get_lookup_code (Some (lit "")) (Some (lit "77")) = lit "77".
Proof. reflexivity. Qed.

Example resolve_blank_abc :
  get_lookup_code (Some (lit "")) (Some (lit "abc")) = lit "".
Proof. reflexivity. Qed.

Lemma before_first_dot_nonempty (s : str) :
  _INT_OR_WHOLE_FLOAT_fullmatch s = true -> nonempty (before_first_dot s) = true.
Proof.
  intros H. apply fullmatch_spec in H as [[Hne Hall] | (d & z & -> & Hd & Hdd & _)].
  - destruct s as [|c t]; [discriminate|]. simpl in *.
    apply andb_prop in Hall as [Hc _].
    destruct (Ascii.eqb c ".") eqn:E; [|reflexivity].
    apply Ascii.eqb_eq in E; subst; discriminate.
  - now rewrite before_first_dot_app.
Qed.

Lemma normalize_nonempty (s : option str) (t : str) :
  normalize_numeric_token s = Some t -> nonempty t = true.
Proof.
  destruct s as [s|]; [|discriminate]. unfold normalize_numeric_token.
  destruct (nonempty (strip s)) eqn:Hne; simpl; [|discriminate].
  destruct (isdigit (strip s)); [intros H; inversion H; subst; exact Hne|].
  destruct (_INT_OR_WHOLE_FLOAT_fullmatch (strip s)) eqn:Hm; [|discriminate].
  intros H; inversion H; subst. now apply before_first_dot_nonempty.
Qed.

Lemma first_some_witness {A B} (f : A -> option B) (l : list A) (b : B) :
  first_some f l = Some b -> exists a, In a l /\ f a = Some b.
Proof.
  induction l as [|a l IH]; simpl; [discriminate|].
  destruct (f a) eqn:E.
  - intros H; inversion H; subst. exists a; auto.
  - intros H. destruct (IH H) as (a' & Hin & Hf). exists a'; auto.
Qed.

Lemma first_valid_nonempty (s : option str) (t : str) :
  first_valid_numeric_from_list s = Some t -> nonempty t = true.
Proof.
  destruct s as [s|]; [|discriminate]. unfold first_valid_numeric_from_list. intros H.
  apply first_some_witness in H as (a & _ & H). exact (normalize_nonempty (Some a) H).
Qed.

(** The resolver's truthiness tests select the same token. *)
Lemma side_token_or_empty (cell : option str) :
  let s := strip (notna_or_empty cell) in
  or_empty (py_or (first_valid_numeric_from_list (Some s))
                  (normalize_numeric_token (Some s)))
  = match side_token cell with Some t => t | None => [] end.
Proof.
  intros s. unfold side_token. fold s.
  destruct (first_valid_numeric_from_list (Some s)) as [t|] eqn:E1.
  - pose proof (first_valid_nonempty _ E1) as Hne.
    destruct t; [discriminate|reflexivity].
  - simpl. destruct (normalize_numeric_token (Some s)) as [t|] eqn:E2; [|reflexivity].
    pose proof (normalize_nonempty _ E2) as Hne.
    destruct t; [discriminate|reflexivity].
Qed.

Lemma side_token_nonempty (cell : option str) (t : str) :
  side_token cell = Some t -> nonempty t = true.
Proof.
  unfold side_token.
  destruct (first_valid_numeric_from_list _) as [t'|] eqn:E1.
  - intros H; inversion H; subst. exact (first_valid_nonempty _ E1).
  - apply normalize_nonempty.
Qed.

Lemma int_or_none_side (cell : option str) :
  int_or_none (match side_token cell with Some t => t | None => [] end)
  = side_value cell.
Proof.
  unfold side_value, int_or_none.
  destruct (side_token cell) as [t|] eqn:E; [|reflexivity].
  now rewrite (side_token_nonempty _ E).
Qed.

(** The resolver in terms of the two sides. *)
Lemma get_lookup_code_sides (code sku : option str) :
  get_lookup_code code sku =
  let pc := match side_token code with Some t => t | None => [] end in
  let sk := match side_token sku with Some t => t | None => [] end in
  match side_value code, side_value sku with
  | Some a, Some b => if (b <=? a)%Z then pc else sk
  | Some _, None => pc
  | None, Some _ => sk
  | None, None => []
  end.
Proof.
  unfold get_lookup_code.
  rewrite (side_token_or_empty code), (side_token_or_empty sku).
  now rewrite !int_or_none_side.
Qed.

(** *** The resolver by cases *)

(** C4. For every pair of raw identifier cells: when both sides yield a
    numeric value the resolver returns the token of the side whose value is
    the larger (the code side on equal values), so the value of the result
    is the maximum of the two; when only one side has a value it returns
    that side's token; when neither has, the empty string.  The three
    examples of the specification evaluate as stated. *)
Theorem get_lookup_code_spec :
  (forall code sku : option str,
     match side_value code, side_value sku with
     | Some a, Some b =>
         exists tc ts, side_token code = Some tc /\ side_token sku = Some ts /\
           get_lookup_code code sku = (if (b <=? a)%Z then tc else ts) /\
           Py.int (get_lookup_code code sku) = Some (Z.max a b)
     | Some a, None =>
         side_token code = Some (get_lookup_code code sku)
     | None, Some b =>
         side_token sku = Some (get_lookup_code code sku)
     | None, None => get_lookup_code code sku = []
     end) /\
  get_lookup_code (Some (lit "50")) (Some (lit "120")) = lit "120" /\
  get_lookup_code (Some (lit "")) (Some (lit "77")) = lit "77" /\
  get_lookup_code (Some (lit "")) (Some (lit "abc")) = lit "".
Proof.
  split; [|repeat split; reflexivity].
  intros code sku. rewrite get_lookup_code_sides.
  unfold side_value.
  destruct (side_token code) as [tc|] eqn:Ec, (side_token sku) as [ts|] eqn:Es; simpl.
  - destruct (Py.int tc) as [a|] eqn:Ea, (Py.int ts) as [b|] eqn:Eb; auto.
    exists tc, ts. repeat split; auto.
    destruct (Z.leb_spec b a).
    + now rewrite Ea, Z.max_l.
    + rewrite Eb, Z.max_r; [reflexivity | lia].
  - destruct (Py.int tc); auto.
  - destruct (Py.int ts); auto.
  - reflexivity.
Qed.

(** *** The code is emitted as text *)

Lemma re_digit_not_space (c : ascii) : re_digit c = true -> isspace c = false.
Proof. destruct c as [[] [] [] [] [] [] [] []]; try discriminate; reflexivity. Qed.

Lemma re_digit_not_sep (c : ascii) : re_digit c = true -> is_list_sep c = false.
Proof. destruct c as [[] [] [] [] [] [] [] []]; try discriminate; reflexivity. Qed.

Lemma digit_string_no_blank_ends (d : str) :
  forallb re_digit d = true -> no_blank_ends d.
Proof.
  intros H. split.
  - destruct d as [|c t]; [exact I|]. simpl in H.
    apply andb_prop in H as [Hc _]. now apply re_digit_not_space.
  - rewrite <- forallb_rev in H. destruct (rev d) as [|c t]; [exact I|].
    simpl in H. apply andb_prop in H as [Hc _]. now apply re_digit_not_space.
Qed.

Lemma re_split_no_sep (sep : ascii -> bool) (s : str) :
  forallb (fun c => negb (sep c)) s = true -> re_split sep s = [s].
Proof.
  induction s as [|c t IH]; simpl; [reflexivity|].
  intros H. apply andb_prop in H as [Hc Ht].
  apply negb_true_iff in Hc. now rewrite Hc, IH.
Qed.

Lemma normalize_digit_string (d : str) :
  digit_string d -> normalize_numeric_token (Some d) = Some d.
Proof.
  intros [Hne Hd]. unfold normalize_numeric_token.
  rewrite (strip_fixed (digit_string_no_blank_ends d Hd)), Hne. simpl.
  unfold isdigit. now rewrite Hne, (forallb_impl _ _ _ re_digit_isdigit_char Hd).
Qed.

Lemma first_valid_digit_string (d : str) :
  digit_string d -> first_valid_numeric_from_list (Some d) = Some d.
Proof.
  intros Hd. unfold first_valid_numeric_from_list.
  rewrite re_split_no_sep.
  - simpl. now rewrite normalize_digit_string.
  - destruct Hd as [_ Hd]. revert Hd. apply forallb_impl.
    intros c Hc. now rewrite re_digit_not_sep.
Qed.

Lemma side_token_digit_string (cell : option str) (d : str) :
  digit_string d -> strip (notna_or_empty cell) = d ->
  side_token cell = Some d /\ side_value cell = Some (digits_value d).
Proof.
  intros Hd E. unfold side_value, side_token. rewrite E.
  rewrite (first_valid_digit_string Hd). split; [reflexivity|].
  destruct Hd as [Hne Hall]. unfold Py.int. now rewrite Hne, Hall.
Qed.

(** C9. When the winning side, trimmed, is a string of decimal digits, the
    resolver returns exactly that string: the comparison is by numeric
    value but the answer is the text, so leading zeros are kept. *)
Theorem get_lookup_code_verbatim (code sku : option str) (d : str) :
  digit_string d ->
  (strip (notna_or_empty code) = d /\ code_wins code sku) \/
  (strip (notna_or_empty sku) = d /\ sku_wins code sku) ->
  get_lookup_code code sku = d.
Proof.
  intros Hd H. rewrite get_lookup_code_sides.
  destruct H as [[E (a & Ha & Hw)] | [E (b & Hb & Hw)]].
  - destruct (side_token_digit_string code Hd E) as [Ht Hv].
    rewrite Ht, Ha. cbv zeta.
    destruct (side_value sku) as [b|]; [|reflexivity].
    apply Z.leb_le in Hw. now rewrite Hw.
  - destruct (side_token_digit_string sku Hd E) as [Ht Hv].
    rewrite Ht, Hb. cbv zeta.
    destruct (side_value code) as [a|]; [|reflexivity].
    apply Z.leb_gt in Hw. now rewrite Hw.
Qed.

(** A winning code ["007"] against the sku ["5"] is emitted as ["007"]. *)
Lemma get_lookup_code_verbatim_witness :
  get_lookup_code (Some (lit "007")) (Some (lit "5")) = lit "007".
Proof.
  apply (@get_lookup_code_verbatim (Some (lit "007")) (Some (lit "5")) (lit "007")).
  - split; reflexivity.
  - left. split; [reflexivity|]. exists 7%Z. split; [reflexivity|].
    vm_compute. discriminate.
Defined.

(** ** Size / unit extraction *)

Example extract_olive_oil :
  extract_size_and_unit (Some (lit "Olive Oil 500ml"))
  = (Some (lit "Olive Oil"), 500, lit "ml").
Proof. reflexivity. Qed.

Example extract_chips :
  extract_size_and_unit (Some (lit "Chips 50g each"))
  = (Some (lit "Chips"), 50, lit "g").
Proof. reflexivity. Qed.

Example extract_plain_water :
  extract_size_and_unit (Some (lit "Plain Water"))
  = (Some (lit "Plain Water"), 1, lit "each").
Proof. reflexivity. Qed.

Example extract_decimal :
  extract_size_and_unit (Some (lit "  Ghee   1.5KG  "))
  = (Some (lit "Ghee"), 3 # 2, lit "kg").
Proof. reflexivity. Qed.

Example extract_unknown_unit :
  extract_size_and_unit (Some (lit "Tea 20bags"))
  = (Some (lit "Tea 20bags"), 1, lit "each").
Proof. reflexivity. Qed.

Lemma re_alpha_not_digit (c : ascii) : re_alpha c = true -> re_digit c = false.
Proof. destruct c as [[] [] [] [] [] [] [] []]; try discriminate; reflexivity. Qed.

Lemma re_alpha_not_dot (c : ascii) :
  re_alpha c = true -> Ascii.eqb c "."%char = false.
Proof. destruct c as [[] [] [] [] [] [] [] []]; try discriminate; reflexivity. Qed.

Lemma letters_head (ls : str) :
  letters ls ->
  match ls with [] => True | c :: _ => re_digit c = false end /\
  exists c r, ls = c :: r /\ re_alpha c = true.
Proof.
  intros [Hne Hall]. destruct ls as [|c r]; [discriminate|].
  simpl in Hall. apply andb_prop in Hall as [Hc _].
  split; [now apply re_alpha_not_digit | eauto].
Qed.

Lemma str_eqb_eq (a b : str) : str_eqb a b = true <-> a = b.
Proof.
  unfold str_eqb. destruct (list_eq_dec ascii_dec a b); split; congruence.
Qed.

Lemma in_allowed_In (u : str) : in_allowed u = true <-> In u allowed.
Proof.
  unfold in_allowed. rewrite existsb_exists. split.
  - intros (x & Hin & E). apply str_eqb_eq in E. now subst.
  - intros H. exists u. split; [assumption | now apply str_eqb_eq].
Qed.

Lemma float_decimal_text (g : str) :
  decimal_text g -> exists q, Py.float g = Some q.
Proof.
  intros [ds [Hne Hd] | ds fs [Hne Hd] [Hnf Hf]]; unfold Py.float.
  - rewrite span_all by auto. rewrite Hne. eauto.
  - rewrite span_app by auto. rewrite Hne. simpl. rewrite Hnf, Hf. simpl. eauto.
Qed.

(** What a successful match of the pattern says about the token. *)
Lemma size_pattern_match_sound (t g1 g2 : str) :
  size_pattern_match t = Some (g1, g2) ->
  decimal_text g1 /\ letters g2 /\
  (t = g1 ++ g2 \/ exists c, ord c = 10%N /\ t = g1 ++ g2 ++ [c]).
Proof.
  unfold size_pattern_match.
  destruct (span re_digit t) as [ds r1] eqn:E1.
  destruct (span_spec _ _ E1) as (-> & Hds & Hr1).
  destruct (nonempty ds) eqn:Hne; [|discriminate].
  assert (Hdec : forall g r2,
    (let (ls, r3) := span re_alpha r2 in
     if nonempty ls
     then match r3 with
          | [] => Some (g, ls)
          | [c] => if (ord c =? 10)%N then Some (g, ls) else None
          | _ => None
          end
     else None) = Some (g1, g2) ->
    g = g1 /\ letters g2 /\
    (r2 = g2 \/ exists c, ord c = 10%N /\ r2 = g2 ++ [c])).
  { intros g r2. destruct (span re_alpha r2) as [ls r3] eqn:E3.
    destruct (span_spec _ _ E3) as (-> & Hls & _).
    destruct (nonempty ls) eqn:Hnl; [|discriminate].
    destruct r3 as [|c [|c' r3]]; try discriminate.
    - intros H; inversion H; subst. rewrite app_nil_r. repeat split; auto.
    - destruct (ord c =? 10)%N eqn:Ec; [|discriminate].
      apply N.eqb_eq in Ec. intros H; inversion H; subst.
      repeat split; eauto. }
  destruct r1 as [|c r].
  - simpl. discriminate.
  - destruct (Ascii.eqb c ".") eqn:Ec.
    + apply Ascii.eqb_eq in Ec; subst c.
      destruct (span re_digit r) as [fs r'] eqn:E2.
      destruct (span_spec _ _ E2) as (-> & Hfs & _).
      destruct (nonempty fs) eqn:Hnf.
      * intros H. apply Hdec in H as (<- & Hl & Hr).
        split; [constructor 2; split; auto|]. split; [assumption|].
        destruct Hr as [-> | (c & Hc & ->)].
        { left. now rewrite <- app_assoc. }
        right. exists c. split; [assumption|]. now rewrite <- app_assoc.
      * intros H. apply Hdec in H as (<- & Hl & Hr).
        exfalso. destruct (letters_head Hl) as (_ & c & r2 & -> & Hc).
        destruct Hr as [Hr | (c' & _ & Hr)]; inversion Hr; subst; discriminate.
    + intros H. apply Hdec in H as (<- & Hl & Hr).
      split; [constructor 1; split; auto|]. split; [assumption|].
      destruct Hr as [-> | (c' & Hc & ->)]; [now left|].
      right. exists c'. auto.
Qed.

(** The pattern matches every token of the declared shape. *)
Lemma size_pattern_match_complete (g ls : str) :
  decimal_text g -> letters ls -> size_pattern_match (g ++ ls) = Some (g, ls).
Proof.
  intros Hg Hl.
  assert (Hsp : span re_alpha ls = (ls, [])) by apply span_all, Hl.
  destruct (letters_head Hl) as (Hh & c & r & -> & Hc).
  unfold size_pattern_match.
  destruct Hg as [ds [Hne Hd] | ds fs [Hne Hd] [Hnf Hf]].
  - rewrite span_app by auto. rewrite Hne.
    rewrite (re_alpha_not_dot _ Hc), Hsp. reflexivity.
  - rewrite <- app_assoc. simpl. rewrite span_app by auto.
    rewrite Hne. simpl. rewrite span_app by auto. rewrite Hnf.
    rewrite Hsp. reflexivity.
Qed.

Lemma no_space_newline (a : str) (c : ascii) :
  ord c = 10%N -> no_space (a ++ [c]) = false.
Proof.
  intros Hc. unfold no_space. rewrite forallb_app. simpl.
  assert (isspace c = true) as ->.
  { unfold isspace, between. rewrite Hc. reflexivity. }
  now rewrite andb_false_r.
Qed.

(** On a word, the rule body succeeds exactly on the declared tokens. *)
Lemma size_of_token_iff (t : str) (num : Q) (unit : str) :
  no_space t = true ->
  size_of_token t = Some (num, unit) <-> size_token t num unit.
Proof.
  intros Hns. unfold size_of_token, size_token. split.
  - destruct (size_pattern_match t) as [[g1 g2]|] eqn:Em; [|discriminate].
    destruct (size_pattern_match_sound _ Em) as (Hg & Hl & Ht).
    destruct (in_allowed (lower g2)) eqn:Ha; [|discriminate].
    intros H; inversion H; subst. exists g1, g2.
    destruct Ht as [Ht | (c & Hc & Ht)].
    + destruct (float_decimal_text Hg) as (q & Hq).
      unfold float_or_1. rewrite Hq.
      split; [auto|]. split; [auto|]. split; [auto|].
      split; [auto|]. split; [reflexivity | now apply in_allowed_In].
    + exfalso. rewrite Ht, app_assoc, no_space_newline in Hns by assumption.
      discriminate.
  - intros (g & ls & -> & Hg & Hl & Hf & -> & Hin).
    rewrite size_pattern_match_complete by assumption.
    apply in_allowed_In in Hin. rewrite Hin.
    unfold float_or_1. now rewrite Hf.
Qed.

(** *** Words *)

Lemma split_cons (c : ascii) (t : str) :
  split (c :: t) =
  if isspace c then split t
  else match t with
       | [] => [[c]]
       | d :: _ =>
           if isspace d then [c] :: split t
           else match split t with
                | w :: ws => (c :: w) :: ws
                | [] => [[c]]
                end
       end.
Proof. reflexivity. Qed.

(** A word of [s.split()] holds no blank. *)
Lemma split_no_space (s : str) : Forall (fun w => no_space w = true) (split s).
Proof.
  induction s as [|c t IH]; [constructor|].
  rewrite split_cons. destruct (isspace c) eqn:Hc; [exact IH|].
  assert (H1 : no_space [c] = true) by (unfold no_space; simpl; now rewrite Hc).
  destruct t as [|d t']; [repeat constructor; exact H1|].
  destruct (isspace d); [constructor; assumption|].
  destruct (split (d :: t')) as [|w ws]; [repeat constructor; exact H1|].
  inversion IH; subst. constructor; [|assumption].
  unfold no_space in *. simpl. now rewrite Hc.
Qed.

Lemma word_m1_snoc (ws : list str) (t : str) : word_m1 (ws ++ [t]) = t.
Proof. apply last_last. Qed.

Lemma word_m1_snoc2 (ws : list str) (t e : str) : word_m1 (ws ++ [t; e]) = e.
Proof. change [t; e] with ([t] ++ [e]). rewrite app_assoc. apply last_last. Qed.

Lemma word_m2_snoc2 (ws : list str) (t e : str) : word_m2 (ws ++ [t; e]) = t.
Proof.
  unfold word_m2. rewrite length_app. simpl.
  replace (List.length ws + 2 - 2)%nat with (List.length ws) by lia.
  now rewrite nth_middle.
Qed.

Lemma upto_m1_snoc (ws : list str) (t : str) : upto_m1 (ws ++ [t]) = ws.
Proof.
  unfold upto_m1. rewrite length_app. simpl.
  replace (List.length ws + 1 - 1)%nat with (List.length ws + 0)%nat by lia.
  rewrite firstn_app_2. simpl. apply app_nil_r.
Qed.

Lemma upto_m2_snoc2 (ws : list str) (t e : str) : upto_m2 (ws ++ [t; e]) = ws.
Proof.
  unfold upto_m2. rewrite length_app. simpl.
  replace (List.length ws + 2 - 2)%nat with (List.length ws + 0)%nat by lia.
  rewrite firstn_app_2. simpl. apply app_nil_r.
Qed.

Lemma snoc_of_nonempty {A} (l : list A) :
  nonempty l = true -> exists ws t, l = ws ++ [t].
Proof.
  intros H. destruct (exists_last (l := l)) as (ws & t & E).
  - now destruct l.
  - eauto.
Qed.

Lemma snoc2_of_length {A} (l : list A) :
  (2 <=? List.length l) = true -> exists ws t e, l = ws ++ [t; e].
Proof.
  intros H. apply Nat.leb_le in H.
  destruct (@snoc_of_nonempty A l) as (l' & e & ->).
  { destruct l; [simpl in H; lia | reflexivity]. }
  rewrite length_app in H. simpl in H.
  destruct (@snoc_of_nonempty A l') as (ws & t & ->).
  { destruct l'; [simpl in H; lia | reflexivity]. }
  exists ws, t, e. now rewrite <- app_assoc.
Qed.

Lemma nonempty_snoc {A} (l : list A) (x : A) : nonempty (l ++ [x]) = true.
Proof. now destruct l. Qed.

Lemma snoc_inj {A} (a b : list A) (x y : A) :
  a ++ [x] = b ++ [y] -> a = b /\ x = y.
Proof. intros H. apply app_inj_tail in H. exact H. Qed.

Lemma snoc2_inj {A} (a b : list A) (x y x' y' : A) :
  a ++ [x; y] = b ++ [x'; y'] -> a = b /\ x = x' /\ y = y'.
Proof.
  change [x; y] with ([x] ++ [y]). change [x'; y'] with ([x'] ++ [y']).
  rewrite !app_assoc. intros H.
  apply snoc_inj in H as [H ->]. apply snoc_inj in H as [-> ->]. auto.
Qed.

(** *** The three rules of the extractor *)

Section Rules.

Variable words : list str.
Hypothesis words_no_space : Forall (fun w => no_space w = true) words.

Lemma rule1_code_iff (res : option str * Q * str) :
  rule1_code words = Some res <->
  exists ws t e num unit,
    words = ws ++ [t; e] /\ lower e = lit "each" /\
    size_token t num unit /\
    res = (Some (join (lit " ") ws), num, unit).
Proof.
  unfold rule1_code. split.
  - destruct (str_eqb _ _ && _) eqn:Hc; [|discriminate].
    apply andb_prop in Hc as [He Hlen].
    destruct (snoc2_of_length _ Hlen) as (ws & t & e & E).
    revert He. rewrite E, word_m1_snoc2, word_m2_snoc2, upto_m2_snoc2.
    intros He. apply str_eqb_eq in He.
    destruct (size_of_token t) as [[num unit]|] eqn:Et; [|discriminate].
    intros H; inversion H; subst res.
    exists ws, t, e, num, unit. repeat split; auto.
    apply size_of_token_iff; [|assumption].
    rewrite Forall_forall in words_no_space. apply words_no_space.
    rewrite E. apply in_or_app. right. now left.
  - intros (ws & t & e & num & unit & E & He & Ht & ->).
    rewrite E, word_m1_snoc2, word_m2_snoc2, upto_m2_snoc2.
    apply str_eqb_eq in He. rewrite He.
    assert (Hlen : (2 <=? List.length (ws ++ [t; e])) = true).
    { apply Nat.leb_le. rewrite length_app. simpl. lia. }
    rewrite Hlen. simpl.
    apply size_of_token_iff in Ht.
    + now rewrite Ht.
    + rewrite Forall_forall in words_no_space. apply words_no_space.
      rewrite E. apply in_or_app. right. now left.
Qed.

Lemma rule2_code_iff (res : option str * Q * str) :
  rule2_code words = Some res <->
  exists ws t num unit,
    words = ws ++ [t] /\ size_token t num unit /\
    res = (Some (join (lit " ") ws), num, unit).
Proof.
  unfold rule2_code. split.
  - destruct (nonempty words) eqn:Hne; [|discriminate].
    destruct (snoc_of_nonempty _ Hne) as (ws & t & E).
    rewrite E, word_m1_snoc, upto_m1_snoc.
    destruct (size_of_token t) as [[num unit]|] eqn:Et; [|discriminate].
    intros H; inversion H; subst res.
    exists ws, t, num, unit. repeat split; auto.
    apply size_of_token_iff; [|assumption].
    rewrite Forall_forall in words_no_space. apply words_no_space.
    rewrite E. apply in_or_app. right. now left.
  - intros (ws & t & num & unit & E & Ht & ->).
    rewrite E, word_m1_snoc, upto_m1_snoc.
    rewrite nonempty_snoc.
    apply size_of_token_iff in Ht.
    + now rewrite Ht.
    + rewrite Forall_forall in words_no_space. apply words_no_space.
      rewrite E. apply in_or_app. right. now left.
Qed.

(** The body of the extractor after the two early returns. *)
Lemma extract_body (name : option str) :
  (if negb (nonempty words) then (name, 1, lit "each")
   else match rule1_code words with
        | Some r => r
        | None =>
            match size_of_token (word_m1 words) with
            | Some (num, unit) =>
                (Some (join (lit " ") (upto_m1 words)), num, unit)
            | None => (name, 1, lit "each")
            end
        end)
  = match rule1_code words with
    | Some r => r
    | None => match rule2_code words with
              | Some r => r
              | None => (name, 1, lit "each")
              end
    end.
Proof.
  unfold rule2_code. destruct (nonempty words) eqn:Hne; simpl.
  - destruct (rule1_code words); [reflexivity|].
    now destruct (size_of_token (word_m1 words)) as [[? ?]|].
  - unfold rule1_code. destruct words; [|discriminate]. reflexivity.
Qed.

End Rules.

Lemma extract_size_and_unit_eq (name : str) :
  extract_size_and_unit (Some name) =
  match rule1_code (split (strip name)) with
  | Some r => r
  | None => match rule2_code (split (strip name)) with
            | Some r => r
            | None => (Some name, 1, lit "each")
            end
  end.
Proof. exact (extract_body (split_no_space (strip name)) (Some name)). Qed.

Lemma rule1_iff (name : str) (res : option str * Q * str) :
  rule1_code (split (strip name)) = Some res <-> rule1 name res.
Proof. apply rule1_code_iff, split_no_space. Qed.

Lemma rule2_iff (name : str) (res : option str * Q * str) :
  rule2_code (split (strip name)) = Some res <-> rule2 name res.
Proof. apply rule2_code_iff, split_no_space. Qed.

(** C5. A name that is not a string comes back with size 1 and unit
    "each".  For a string: when rule 1 applies the result is rule 1's,
    whatever rule 2 would give; when rule 1 does not apply and rule 2 does,
    the result is rule 2's; when neither applies the name comes back
    unchanged with size 1 and unit "each"; and one of the three cases always
    holds. *)
Theorem extract_size_and_unit_rules :
  extract_size_and_unit None = (None, 1, lit "each") /\
  forall name : str,
    let res := extract_size_and_unit (Some name) in
    (forall r, rule1 name r -> res = r) /\
    (forall r, ~ (exists r1, rule1 name r1) -> rule2 name r -> res = r) /\
    (~ (exists r1, rule1 name r1) -> ~ (exists r2, rule2 name r2) ->
     res = (Some name, 1, lit "each")) /\
    (rule1 name res \/
     (~ (exists r1, rule1 name r1) /\ rule2 name res) \/
     (~ (exists r1, rule1 name r1) /\ ~ (exists r2, rule2 name r2) /\
      res = (Some name, 1, lit "each"))).
Proof.
  split; [reflexivity|]. intros name res. subst res.
  rewrite extract_size_and_unit_eq.
  destruct (rule1_code (split (strip name))) as [r1|] eqn:E1.
  - apply rule1_iff in E1. repeat split.
    + intros r Hr. apply rule1_iff in E1, Hr. congruence.
    + intros r Hn. exfalso. apply Hn. eauto.
    + intros Hn. exfalso. apply Hn. eauto.
    + now left.
  - assert (N1 : ~ (exists r1, rule1 name r1)).
    { intros (r & Hr). apply rule1_iff in Hr. congruence. }
    destruct (rule2_code (split (strip name))) as [r2|] eqn:E2.
    + apply rule2_iff in E2. repeat split.
      * intros r Hr. now destruct N1; eauto.
      * intros r _ Hr. apply rule2_iff in E2, Hr. congruence.
      * intros _ Hn. exfalso. apply Hn. eauto.
      * right. left. auto.
    + assert (N2 : ~ (exists r2, rule2 name r2)).
      { intros (r & Hr). apply rule2_iff in Hr. congruence. }
      repeat split.
      * intros r Hr. now destruct N1; eauto.
      * intros r _ Hr. now destruct N2; eauto.
      * right. right. auto.
Qed.

(** Rule 1 on "Chips 50g each": both trailing words are removed. *)
Lemma extract_size_and_unit_rules_witness :
  extract_size_and_unit (Some (lit "Chips 50g each"))
  = (Some (lit "Chips"), 50, lit "g").
Proof.
  apply (proj1 (proj2 extract_size_and_unit_rules (lit "Chips 50g each"))).
  exists [lit "Chips"], (lit "50g"), (lit "each"), 50, (lit "g").
  split; [reflexivity|]. split; [reflexivity|]. split; [|reflexivity].
  exists (lit "50"), (lit "g").
  split; [reflexivity|]. split; [left; split; reflexivity|].
  split; [split; reflexivity|]. split; [reflexivity|].
  split; [reflexivity|]. simpl. auto.
Defined.

(** ** Retail rounding *)

Example retail_round_10_00 :
  retail_round (Fin 10) = Ok (Fin (1029 # 100)).
Proof. reflexivity. Qed.

Example retail_round_10_30 :
  retail_round (Fin (1030 # 100)) = Ok (Fin (1049 # 100)).
Proof. reflexivity. Qed.

Example retail_round_10_99 :
  retail_round (Fin (1099 # 100)) = Ok (Fin (1099 # 100)).
Proof. reflexivity. Qed.

(** 10.95 has the fractional part 0.95, which the candidate 0.99 covers:
    the result is 10.99 and there is no roll to the next integer. *)
Example retail_round_10_95 :
  retail_round (Fin (1095 # 100)) = Ok (Fin (1099 # 100)).
Proof. reflexivity. Qed.

Example retail_round_10_995 :
  retail_round (Fin (10995 # 1000)) = Ok (Fin (1129 # 100)).
Proof. reflexivity. Qed.

Example retail_round_negative :
  retail_round (Fin (- (1 # 2))) = Ok (Fin (- (21 # 100))).
Proof. reflexivity. Qed.

Example retail_round_inf : retail_round PInf = Raise OverflowError.
Proof. reflexivity. Qed.

(** *** Rounding to two decimals is exact on hundredths *)








(** *** What the rounder guarantees *)



(** ** The transform *)

Example dedup_keeps_higher_price :
  let row p := {| Raw.name := Some (lit "Rice"); Raw.code := Some (lit "500");
                  Raw.sku := None; Raw.price := Fin p;
                  Raw.priceType := Some (lit "fixed");
                  Raw.unit_count := None |} in
  exists o,
    process_mapped_items {| columns := required; rows := [row (28 # 10); row (46 # 10)] |}
    = Ok [o] /\
    Canon.lookup_code o = lit "500" /\
    Canon.cost_price_per_unit o = Fin (529 # 100).
Proof. eexists. split; [vm_compute; reflexivity|]. split; reflexivity. Qed.

(** *** Stage B *)

Lemma lstrip_all_space (s : str) : forallb isspace s = true -> lstrip s = [].
Proof.
  induction s as [|c t IH]; simpl; [reflexivity|].
  intros H. apply andb_prop in H as [Hc Ht]. now rewrite Hc, IH.
Qed.

Lemma strip_nil_iff (s : str) : strip s = [] <-> forallb isspace s = true.
Proof.
  split.
  - intros E. destruct (strip_spec s) as (l & r & Es & Hl & Hr & _).
    rewrite E in Es. rewrite Es, forallb_app. simpl. now rewrite Hl, Hr.
  - intros H. unfold strip. now rewrite (lstrip_all_space _ H).
Qed.

Lemma blank_cell_iff (cell : option str) : blank_cell cell = true <-> blank cell.
Proof.
  unfold blank_cell, blank. destruct cell as [s|]; simpl; [|tauto].
  rewrite str_eqb_eq. apply strip_nil_iff.
Qed.

Lemma filter_filter {A} (p q : A -> bool) (l : list A) :
  filter q (filter p l) = filter (fun a => p a && q a) l.
Proof.
  induction l as [|a l IH]; simpl; [reflexivity|].
  destruct (p a); simpl; [destruct (q a)|]; now rewrite IH.
Qed.

Lemma isna_None {A} (o : option A) : isna o = true <-> o = None.
Proof. destruct o; simpl; split; congruence. Qed.

Lemma keep_B_iff (r : Raw.t) : keep_B r = true <-> ~ dropped_by_B r.
Proof.
  unfold keep_B, _valid_row, dropped_by_B.
  fold (blank_cell (Raw.code r)).
  rewrite <- !blank_cell_iff, <- isna_None.
  destruct (blank_cell (Raw.code r)), (blank_cell (Raw.sku r)),
    (isna (normalize_numeric_token (Raw.sku r))); simpl;
    intuition congruence.
Qed.

(** C7. Stage B keeps the rows in their order and drops a row exactly
    when its code and sku are both blank, or its code is blank and its sku
    does not normalise to a clean numeric token; every other row stays. *)
Theorem stage_B_spec :
  forall df_f : list Raw.t,
    stage_B df_f = filter keep_B df_f /\
    (forall r, keep_B r = true <-> ~ dropped_by_B r) /\
    (forall r, In r (stage_B df_f) <-> In r df_f /\ ~ dropped_by_B r).
Proof.
  intros df_f.
  assert (E : stage_B df_f = filter keep_B df_f) by apply filter_filter.
  split; [exact E|]. split; [exact keep_B_iff|].
  intros r. rewrite E, filter_In, keep_B_iff. tauto.
Qed.

(** ** Stage G: ranking inside a group *)

(** *** The order of binary64 values *)

Lemma flt_irrefl (a : pyfloat) : flt a a = false.
Proof.
  destruct a as [q| | |]; simpl; try reflexivity.
  apply negb_false_iff, Qle_bool_iff, Qle_refl.
Qed.

Lemma flt_Fin (p q : Q) : flt (Fin p) (Fin q) = true <-> p < q.
Proof.
  simpl. rewrite negb_true_iff. split.
  - intros H. apply Qnot_le_lt. intros Hle.
    apply Qle_bool_iff in Hle. congruence.
  - intros H. destruct (Qle_bool q p) eqn:E; [|reflexivity].
    apply Qle_bool_iff in E. lra.
Qed.

Lemma feq_Fin (p q : Q) : feq (Fin p) (Fin q) = true <-> p == q.
Proof. apply Qeq_bool_iff. Qed.

Lemma flt_trans (a b c : pyfloat) :
  flt a b = true -> flt b c = true -> flt a c = true.
Proof.
  destruct a as [p| | |], b as [q| | |], c as [r| | |];
    try discriminate; try reflexivity.
  rewrite !flt_Fin. apply Qlt_trans.
Qed.

Lemma feq_flt_r (a b c : pyfloat) :
  feq c b = true -> flt a b = true -> flt a c = true.
Proof.
  destruct a as [p| | |], b as [q| | |], c as [r| | |];
    try discriminate; try reflexivity.
  rewrite feq_Fin, !flt_Fin. intros E H. now rewrite E.
Qed.

Lemma flt_total (a b : pyfloat) :
  a <> NaN -> b <> NaN ->
  flt a b = false -> flt b a = false -> feq a b = true.
Proof.
  destruct a as [p| | |], b as [q| | |];
    try discriminate; try reflexivity; try congruence.
  intros _ _ H1 H2. apply feq_Fin.
  apply negb_false_iff, Qle_bool_iff in H1, H2. now apply Qle_antisym.
Qed.

Lemma _price_for_rank_not_nan (o : Canon.t) : _price_for_rank o <> NaN.
Proof.
  unfold _price_for_rank. destruct (Canon.cost_price_per_unit o); discriminate.
Qed.

(** *** Positions *)

Lemma In_enumerate_from {A} (l : list A) (start i : nat) (a : A) :
  In (i, a) (enumerate_from start l) <->
  (start <= i)%nat /\ nth_error l (i - start) = Some a.
Proof.
  revert start; induction l as [|x l IH]; intros start; simpl.
  - split; [tauto|]. intros [_ H]. now destruct (i - start)%nat.
  - rewrite IH. split.
    + intros [E | [Hle Hn]].
      * inversion E; subst. rewrite Nat.sub_diag. auto.
      * split; [lia|].
        replace (i - start)%nat with (S (i - S start)) by lia. exact Hn.
    + intros [Hle Hn]. destruct (i - start)%nat as [|k] eqn:Ek.
      * left. simpl in Hn. inversion Hn. f_equal. lia.
      * right. split; [lia|]. simpl in Hn.
        replace (i - S start)%nat with k by lia. exact Hn.
Qed.

Lemma In_enumerate {A} (l : list A) (i : nat) (a : A) :
  In (i, a) (enumerate l) <-> nth_error l i = Some a.
Proof.
  unfold enumerate. rewrite In_enumerate_from, Nat.sub_0_r.
  split; [tauto | split; [lia | assumption]].
Qed.

Lemma filter_enumerate_sorted {A} (p : nat * A -> bool) (l : list A) (start : nat) :
  StronglySorted lt (map fst (filter p (enumerate_from start l))) /\
  Forall (fun i => (start <= i)%nat) (map fst (filter p (enumerate_from start l))).
Proof.
  revert start; induction l as [|x l IH]; intros start; simpl.
  - split; constructor.
  - destruct (IH (S start)) as [Hs Hf].
    assert (Hf' : Forall (fun i => (start < i)%nat)
                    (map fst (filter p (enumerate_from (S start) l)))).
    { revert Hf. apply Forall_impl. intros; lia. }
    destruct (p (start, x)); simpl.
    + split; constructor; auto.
      revert Hf'. apply Forall_impl. intros; lia.
    + split; [assumption|]. revert Hf'. apply Forall_impl. intros; lia.
Qed.

Lemma count_zero {A} (p : A -> bool) (l : list A) :
  count p l = 0%nat <-> forall a, In a l -> p a = false.
Proof.
  unfold count. induction l as [|x l IH]; simpl.
  - split; [intros _ a [] | reflexivity].
  - destruct (p x) eqn:E; simpl.
    + split; [discriminate|]. intros H. specialize (H x (or_introl eq_refl)).
      congruence.
    + rewrite IH. split.
      * intros H a [<-|Ha]; auto.
      * intros H a Ha. apply H. now right.
Qed.

Lemma In_firstn_nth_error {A} (l : list A) (i : nat) (a : A) :
  In a (firstn i l) <-> exists j, (j < i)%nat /\ nth_error l j = Some a.
Proof.
  revert i; induction l as [|x l IH]; intros i.
  - rewrite firstn_nil. split; [intros [] | intros (j & _ & H)].
    now destruct j.
  - destruct i as [|i]; simpl.
    + split; [intros [] | intros (j & H & _); lia].
    + rewrite IH. split.
      * intros [<- | (j & Hj & Hn)].
        { exists 0%nat. split; [lia | reflexivity]. }
        exists (S j). split; [lia | exact Hn].
      * intros (j & Hj & Hn). destruct j as [|j].
        { left. simpl in Hn. congruence. }
        right. exists j. split; [lia | exact Hn].
Qed.

Lemma In_nth_error_iff {A} (l : list A) (a : A) :
  In a l <-> exists j, nth_error l j = Some a.
Proof.
  split; [apply In_nth_error|]. intros (j & H). eapply nth_error_In; eauto.
Qed.

(** *** The winner of a group *)

Lemma same_group_iff (a b : Canon.t) :
  same_group a b = true <-> Canon.lookup_code a = Canon.lookup_code b.
Proof. apply str_eqb_eq. Qed.

Lemma and_false_iff (a b : bool) : a && b = false <-> (a = true -> b = false).
Proof. destruct a, b; simpl; intuition congruence. Qed.

Lemma rank_one_iff (out : list Canon.t) (i : nat) (o : Canon.t) :
  _rank out i o = 1%nat <->
  forall j o', nth_error out j = Some o' ->
    Canon.lookup_code o' = Canon.lookup_code o ->
    flt (_price_for_rank o) (_price_for_rank o') = false /\
    ((j < i)%nat -> feq (_price_for_rank o') (_price_for_rank o) = false).
Proof.
  unfold _rank.
  set (c1 := count _ out). set (c2 := count _ (firstn i out)).
  assert (E : (1 + c1 + c2 = 1 <-> c1 = 0 /\ c2 = 0)%nat) by lia.
  rewrite E. unfold c1, c2. rewrite !count_zero. split.
  - intros [H1 H2] j o' Hn Hc. apply same_group_iff in Hc. split.
    + specialize (H1 o' (nth_error_In _ _ Hn)).
      apply and_false_iff in H1; auto.
    + intros Hlt.
      assert (Hin : In o' (firstn i out))
        by (apply In_firstn_nth_error; eauto).
      specialize (H2 o' Hin). apply and_false_iff in H2; auto.
  - intros H. split; intros o' Hin; apply and_false_iff; intros Hc;
      apply same_group_iff in Hc.
    + apply In_nth_error in Hin as (j & Hn). now apply (H j o').
    + apply In_firstn_nth_error in Hin as (j & Hj & Hn).
      now apply (H j o').
Qed.

Lemma kept_iff_winner (out : list Canon.t) (i : nat) (o : Canon.t) :
  In (i, o) (filter (fun io => (_rank out (fst io) (snd io) =? 1)%nat)
                    (enumerate out))
  <-> winner out i o.
Proof.
  rewrite filter_In, In_enumerate. cbn [fst snd].
  rewrite Nat.eqb_eq, rank_one_iff. reflexivity.
Qed.

Lemma nth_error_snoc {A} (l : list A) (x a : A) (j : nat) :
  nth_error (l ++ [x]) j = Some a ->
  nth_error l j = Some a \/ (j = List.length l /\ a = x).
Proof.
  intros H. destruct (Nat.lt_ge_cases j (List.length l)) as [Hlt|Hge].
  - left. now rewrite nth_error_app1 in H.
  - right. rewrite nth_error_app2 in H by assumption.
    destruct (j - List.length l)%nat as [|k] eqn:Ek; simpl in H.
    + split; [lia | congruence].
    + now destruct k.
Qed.

Lemma winner_snoc_keep (l : list Canon.t) (x : Canon.t) (i : nat) (w : Canon.t) :
  winner l i w ->
  (Canon.lookup_code x = Canon.lookup_code w ->
   flt (_price_for_rank w) (_price_for_rank x) = false) ->
  winner (l ++ [x]) i w.
Proof.
  intros [Hn Hw] Hx.
  assert (Hi : (i < List.length l)%nat) by (apply nth_error_Some; congruence).
  split; [now rewrite nth_error_app1|].
  intros j o' Hj Hc. apply nth_error_snoc in Hj as [Hj | [-> ->]].
  - now apply Hw.
  - split; [auto | lia].
Qed.

Lemma winner_snoc_new (l : list Canon.t) (x : Canon.t) :
  (forall j o', nth_error l j = Some o' ->
     Canon.lookup_code o' = Canon.lookup_code x ->
     flt (_price_for_rank x) (_price_for_rank o') = false /\
     feq (_price_for_rank o') (_price_for_rank x) = false) ->
  winner (l ++ [x]) (List.length l) x.
Proof.
  intros H. split.
  - rewrite nth_error_app2 by lia. now rewrite Nat.sub_diag.
  - intros j o' Hj Hc. apply nth_error_snoc in Hj as [Hj | [-> ->]].
    + destruct (H j o' Hj Hc). auto.
    + split; [apply flt_irrefl | lia].
Qed.

Lemma winner_exists (l : list Canon.t) :
  forall o, In o l ->
    exists i w, winner l i w /\ Canon.lookup_code w = Canon.lookup_code o.
Proof.
  induction l as [|x l IH] using rev_ind; intros o Hin; [destruct Hin|].
  assert (Hcase :
    (exists o1, In o1 l /\ Canon.lookup_code o1 = Canon.lookup_code o) \/
    ((forall o1, In o1 l -> Canon.lookup_code o1 <> Canon.lookup_code o) /\
     Canon.lookup_code x = Canon.lookup_code o)).
  { destruct (existsb (fun o1 => same_group o1 o) l) eqn:E.
    - left. apply existsb_exists in E as (o1 & H1 & H2).
      apply same_group_iff in H2. eauto.
    - right. split.
      + intros o1 H1 Hc.
        assert (existsb (fun o1 => same_group o1 o) l = true); [|congruence].
        apply existsb_exists. exists o1. split; [assumption|].
        now apply same_group_iff.
      + apply in_app_or in Hin as [Hin | [-> | []]]; [|reflexivity].
        apply (f_equal negb) in E. simpl in E.
        exfalso. apply Bool.negb_true_iff in E.
        assert (existsb (fun o1 => same_group o1 o) l = true); [|congruence].
        apply existsb_exists. exists o. split; [assumption|].
        now apply same_group_iff. }
  destruct Hcase as [(o1 & H1 & Hc1) | [Hnone Hcx]].
  - destruct (IH o1 H1) as (i & w & Hw & Hcw).
    destruct (str_eqb (Canon.lookup_code x) (Canon.lookup_code w)
              && flt (_price_for_rank w) (_price_for_rank x)) eqn:Hnew.
    + apply andb_prop in Hnew as [Hsame Hlt]. apply str_eqb_eq in Hsame.
      exists (List.length l), x. split; [|congruence].
      apply winner_snoc_new. intros j o' Hj Hc.
      destruct Hw as [_ Hw]. destruct (Hw j o' Hj) as [Hle _]; [congruence|].
      split.
      * destruct (flt (_price_for_rank x) (_price_for_rank o')) eqn:E;
          [|reflexivity].
        rewrite (flt_trans _ _ _ Hlt E) in Hle. discriminate.
      * destruct (feq (_price_for_rank o') (_price_for_rank x)) eqn:E;
          [|reflexivity].
        rewrite (feq_flt_r _ _ _ E Hlt) in Hle. discriminate.
    + exists i, w. split; [|congruence].
      apply winner_snoc_keep; [assumption|].
      intros Hc. apply and_false_iff in Hnew; [assumption|].
      now apply str_eqb_eq.
  - exists (List.length l), x. split; [|assumption].
    apply winner_snoc_new. intros j o' Hj Hc. exfalso.
    apply (Hnone o' (nth_error_In _ _ Hj)). congruence.
Qed.

Lemma winner_unique (l : list Canon.t) (i i' : nat) (w w' : Canon.t) :
  winner l i w -> winner l i' w' ->
  Canon.lookup_code w = Canon.lookup_code w' -> i = i'.
Proof.
  intros [Hn Hw] [Hn' Hw'] Hc.
  destruct (Hw i' w' Hn' (eq_sym Hc)) as [H1 H2].
  destruct (Hw' i w Hn Hc) as [H1' H2'].
  pose proof (flt_total (_price_for_rank_not_nan w) (_price_for_rank_not_nan w')
                        H1 H1') as E.
  pose proof (flt_total (_price_for_rank_not_nan w') (_price_for_rank_not_nan w)
                        H1' H1) as E'.
  destruct (Nat.lt_trichotomy i i') as [Hlt | [Heq | Hgt]]; [|assumption|].
  - rewrite (H2' Hlt) in E. discriminate.
  - rewrite (H2 Hgt) in E'. discriminate.
Qed.

(** *** Stage G keeps the winners *)



Example stage_G_keeps_5_29 :
  let rec p := {| Canon.cost_price_per_unit := Fin p;
                  Canon.cost_unit := lit "each";
                  Canon.lookup_code := lit "500";
                  Canon.name := Some (lit "Rice");
                  Canon.size := 1; Canon.size_uom := lit "each";
                  Canon.unit_count := None; Canon.alcoholic := false |} in
  stage_G [rec (329 # 100); rec (529 # 100)] = [rec (529 # 100)] /\
  stage_G [rec (529 # 100); rec (329 # 100)] = [rec (529 # 100)].
Proof. split; reflexivity. Qed.

(** *** Lookup codes of the output *)

Lemma NoDup_keys_of_sorted {A B} (f : A -> B) (kept : list (nat * A)) :
  StronglySorted lt (map fst kept) ->
  (forall i a i' a', In (i, a) kept -> In (i', a') kept ->
                     f a = f a' -> i = i') ->
  NoDup (map f (map snd kept)).
Proof.
  induction kept as [|[i a] kept IH]; simpl; intros Hs Hu; [constructor|].
  inversion Hs as [|? ? Hs' Hall]; subst. constructor.
  - intros Hin. apply in_map_iff in Hin as (a' & Hf & Hin).
    apply in_map_iff in Hin as ([i' a''] & E & Hin). simpl in E; subst a''.
    assert (i = i') by (apply (Hu i a i' a'); auto).
    subst i'. rewrite Forall_forall in Hall.
    specialize (Hall i (in_map fst _ _ Hin)). simpl in Hall. lia.
  - apply IH; [assumption|]. intros; eapply Hu; eauto.
Qed.

Lemma stage_G_NoDup (out : list Canon.t) :
  NoDup (map Canon.lookup_code (stage_G out)).
Proof.
  unfold stage_G. apply NoDup_keys_of_sorted.
  - apply filter_enumerate_sorted.
  - intros i a i' a' H H' Hc. apply kept_iff_winner in H, H'.
    exact (winner_unique H H' Hc).
Qed.

Lemma stage_G_incl (out : list Canon.t) (o : Canon.t) :
  In o (stage_G out) -> In o out.
Proof.
  unfold stage_G. intros H. apply in_map_iff in H as ([i o'] & E & H).
  simpl in E; subst o'. apply kept_iff_winner in H as [H _].
  eapply nth_error_In; eauto.
Qed.

Lemma stage_F_In (out : list Canon.t) (o : Canon.t) :
  In o (stage_F out) <-> In o out /\ strip (Canon.lookup_code o) <> [].
Proof.
  unfold stage_F. rewrite filter_In, negb_true_iff.
  split; intros [H1 H2]; split; auto.
  - intros E. apply str_eqb_eq in E. congruence.
  - destruct (str_eqb _ _) eqn:E; [|reflexivity].
    apply str_eqb_eq in E. contradiction.
Qed.

(** The shape of a run that returns. *)
Lemma process_mapped_items_Ok (df : DataFrame) (out : list Canon.t) :
  process_mapped_items df = Ok out ->
  exists derived,
    mapM (derive (has_column df "unit_count")) (stage_B (stage_A (rows df)))
    = Ok derived /\
    out = stage_G (stage_F derived).
Proof.
  unfold process_mapped_items.
  destruct (nonempty _); [discriminate|].
  destruct (mapM _ _) as [derived|e]; simpl; [|discriminate].
  intros H; inversion H. eauto.
Qed.

(** C1. In the sequence that [process_mapped_items] returns, every
    [lookup_code] is a non-empty string and no two records share one. *)
Theorem process_mapped_items_lookup_codes (df : DataFrame) (out : list Canon.t) :
  process_mapped_items df = Ok out ->
  Forall (fun o => nonempty (Canon.lookup_code o) = true) out /\
  NoDup (map Canon.lookup_code out).
Proof.
  intros H. apply process_mapped_items_Ok in H as (derived & _ & ->).
  split; [|apply stage_G_NoDup].
  apply Forall_forall. intros o Hin.
  apply stage_G_incl, stage_F_In in Hin as [_ Hne].
  destruct (Canon.lookup_code o); [|reflexivity].
  now contradiction Hne.
Qed.

(** On a frame with a duplicated code and an unusable one, the two codes
    "500" and "007" come out once each. *)
Lemma process_mapped_items_lookup_codes_witness :
  exists out,
    process_mapped_items example_frame = Ok out /\
    map Canon.lookup_code out = [lit "500"; lit "007"] /\
    Forall (fun o => nonempty (Canon.lookup_code o) = true) out /\
    NoDup (map Canon.lookup_code out).
Proof.
  eexists. split; [vm_compute; reflexivity|]. split; [reflexivity|].
  apply (@process_mapped_items_lookup_codes example_frame).
  vm_compute. reflexivity.
Defined.

(** *** Stage F is not redundant *)

(** C10. The row with code "abc" and no sku has a code that is not blank
    and yields no token, and a blank sku.  It passes Stages A and B, its
    resolved [lookup_code] is empty, and Stage F, which keeps exactly the
    records whose trimmed [lookup_code] is not empty, removes it: the run
    on that one row returns the empty sequence.  Stage F therefore removes
    rows that Stage B lets through. *)
Theorem stage_F_not_redundant :
  exists r : Raw.t,
    blank_cell (Raw.code r) = false /\
    side_token (Raw.code r) = None /\
    blank (Raw.sku r) /\
    stage_B (stage_A [r]) = [r] /\
    get_lookup_code (Raw.code r) (Raw.sku r) = [] /\
    (forall out o,
       In o (stage_F out) <-> In o out /\ strip (Canon.lookup_code o) <> []) /\
    (exists o, mapM (derive false) (stage_B (stage_A [r])) = Ok [o] /\
               Canon.lookup_code o = [] /\ stage_F [o] = []) /\
    process_mapped_items {| columns := required; rows := [r] |} = Ok [].
Proof.
  exists unresolved_row.
  split; [reflexivity|]. split; [reflexivity|]. split; [exact I|].
  split; [reflexivity|]. split; [reflexivity|].
  split; [exact stage_F_In|].
  split; [|reflexivity].
  eexists. split; [vm_compute; reflexivity|]. split; reflexivity.
Qed.

(** *** Failure handling *)





Lemma missing_nil_iff (df : DataFrame) :
  filter (fun c => negb (has_column df c)) required = [] <->
  forall c, In c required -> has_column df c = true.
Proof.
  split.
  - intros E c Hin. destruct (has_column df c) eqn:Hc; [reflexivity|].
    assert (Hf : In c (filter (fun c => negb (has_column df c)) required))
      by (apply filter_In; rewrite Hc; auto).
    rewrite E in Hf. destruct Hf.
  - intros H. induction required as [|c l IH]; simpl; [reflexivity|].
    rewrite (H c (or_introl eq_refl)). simpl. apply IH.
    intros c' Hc'. apply H. now right.
Qed.


(** C8, where the code departs from it.  All required columns are present
    and the only row has an infinite price, which [pd.isna] does not
    catch: [math.floor] raises and the run ends in [OverflowError]. *)
Theorem process_mapped_items_infinite_price :
  filter (fun c => negb (has_column infinite_price_frame c)) required = [] /\
  process_mapped_items infinite_price_frame = Raise OverflowError.
Proof. split; reflexivity. Qed.


(** * Part IV: further properties of the program *)

(** ** The token list *)

Lemma first_some_iff {A B} (f : A -> option B) (l : list A) (b : B) :
  first_some f l = Some b <->
  exists pre a post, l = pre ++ a :: post /\
                     Forall (fun p => f p = None) pre /\ f a = Some b.
Proof.
  induction l as [|x l IH]; simpl.
  - split; [discriminate|]. intros (pre & a & post & E & _). now destruct pre.
  - destruct (f x) as [b'|] eqn:Ex.
    + split.
      * intros H; inversion H; subst. exists [], x, l. auto.
      * intros (pre & a & post & E & Hpre & Ha).
        destruct pre as [|p pre]; simpl in E; inversion E; subst.
        { congruence. }
        inversion Hpre; subst. congruence.
    + rewrite IH. split.
      * intros (pre & a & post & -> & Hpre & Ha).
        exists (x :: pre), a, post. auto.
      * intros (pre & a & post & E & Hpre & Ha).
        destruct pre as [|p pre]; simpl in E; inversion E; subst.
        { congruence. }
        inversion Hpre; subst. exists pre, a, post. auto.
Qed.

Lemma first_some_None {A B} (f : A -> option B) (l : list A) :
  first_some f l = None <-> Forall (fun p => f p = None) l.
Proof.
  induction l as [|x l IH]; simpl.
  - split; [constructor | reflexivity].
  - destruct (f x) eqn:Ex.
    + split; [discriminate|]. intros H; inversion H; congruence.
    + rewrite IH. split; [now constructor | intros H; now inversion H].
Qed.

Lemma re_split_pieces (sep : ascii -> bool) (s : str) :
  Forall (fun w => forallb (fun c => negb (sep c)) w = true) (re_split sep s) /\
  List.length (re_split sep s) = S (count sep s).
Proof.
  unfold count. induction s as [|c t [IH1 IH2]]; simpl.
  - split; [repeat constructor | reflexivity].
  - destruct (sep c) eqn:Hc; simpl.
    + split; [now constructor | now rewrite IH2].
    + destruct (re_split sep t) as [|w ws]; [discriminate|].
      inversion IH1; subst. split; [|exact IH2].
      constructor; [|assumption]. simpl. now rewrite Hc.
Qed.

(** X1. [first_valid_numeric_from_list] answers the normal form of the first
    piece, from the left, that normalises: the pieces before it all fail.
    It answers nothing exactly when every piece fails.  The pieces hold no
    separator and there is one more piece than separators. *)
Theorem first_valid_numeric_from_list_first (s : str) :
  let pieces := re_split is_list_sep s in
  (forall t, first_valid_numeric_from_list (Some s) = Some t <->
     exists pre tok post,
       pieces = pre ++ tok :: post /\
       Forall (fun p => normalize_numeric_token (Some p) = None) pre /\
       normalize_numeric_token (Some tok) = Some t) /\
  (first_valid_numeric_from_list (Some s) = None <->
     Forall (fun p => normalize_numeric_token (Some p) = None) pieces) /\
  Forall (fun w => forallb (fun c => negb (is_list_sep c)) w = true) pieces /\
  List.length pieces = S (count is_list_sep s).
Proof.
  intros pieces. split; [|split].
  - intros t. apply first_some_iff.
  - apply first_some_None.
  - apply re_split_pieces.
Qed.

(** ** The normal form *)

Lemma isdigit_char_not_space (c : ascii) :
  isdigit_char c = true -> isspace c = false.
Proof. destruct c as [[] [] [] [] [] [] [] []]; try discriminate; reflexivity. Qed.

Lemma isdigit_char_not_sep (c : ascii) :
  isdigit_char c = true -> is_list_sep c = false.
Proof. destruct c as [[] [] [] [] [] [] [] []]; try discriminate; reflexivity. Qed.

Lemma isspace_not_sep (c : ascii) : isspace c = true -> is_list_sep c = false.
Proof. destruct c as [[] [] [] [] [] [] [] []]; try discriminate; reflexivity. Qed.

Lemma zero_not_sep (c : ascii) :
  Ascii.eqb "0"%char c = true -> is_list_sep c = false.
Proof. intros H. apply Ascii.eqb_eq in H. now subst. Qed.

Lemma isdigit_no_blank_ends (t : str) :
  forallb isdigit_char t = true -> no_blank_ends t.
Proof.
  intros H. split.
  - destruct t as [|c t']; [exact I|]. simpl in H.
    apply andb_prop in H as [Hc _]. now apply isdigit_char_not_space.
  - rewrite <- forallb_rev in H. destruct (rev t) as [|c t']; [exact I|].
    simpl in H. apply andb_prop in H as [Hc _]. now apply isdigit_char_not_space.
Qed.

Lemma normalize_isdigit (s : option str) (t : str) :
  normalize_numeric_token s = Some t -> isdigit t = true.
Proof.
  destruct s as [s|]; [|discriminate]. unfold normalize_numeric_token.
  destruct (nonempty (strip s)) eqn:Hne; simpl; [|discriminate].
  destruct (isdigit (strip s)) eqn:Hd; [intros H; inversion H; now subst|].
  destruct (_INT_OR_WHOLE_FLOAT_fullmatch (strip s)) eqn:Hm; [|discriminate].
  intros H; inversion H; subst.
  apply fullmatch_spec in Hm as [[_ Hall] | (d & z & E & Hd1 & Hd2 & _)].
  - unfold isdigit in Hd. rewrite Hne in Hd. simpl in Hd.
    rewrite (forallb_impl _ _ _ re_digit_isdigit_char Hall) in Hd. discriminate.
  - rewrite E, before_first_dot_app by assumption.
    unfold isdigit. now rewrite Hd1, (forallb_impl _ _ _ re_digit_isdigit_char Hd2).
Qed.

Lemma normalize_fixed (t : str) :
  isdigit t = true -> normalize_numeric_token (Some t) = Some t.
Proof.
  intros H. unfold normalize_numeric_token.
  apply andb_prop in H as [Hne Hall].
  rewrite (strip_fixed (isdigit_no_blank_ends t Hall)), Hne. simpl.
  unfold isdigit. now rewrite Hne, Hall.
Qed.

Lemma normalize_strip (s : str) :
  normalize_numeric_token (Some (strip s)) = normalize_numeric_token (Some s).
Proof. unfold normalize_numeric_token. now rewrite strip_idem. Qed.

(** The text that normalises holds no separator. *)
Lemma normalize_no_sep (s t : str) :
  normalize_numeric_token (Some s) = Some t ->
  forallb (fun c => negb (is_list_sep c)) s = true.
Proof.
  intros H.
  destruct (strip_spec s) as (l & r & Es & Hl & Hr & _).
  assert (Hmid : forallb (fun c => negb (is_list_sep c)) (strip s) = true).
  { unfold normalize_numeric_token in H.
    destruct (nonempty (strip s)) eqn:Hne; simpl in H; [|discriminate].
    destruct (isdigit (strip s)) eqn:Hd.
    - apply andb_prop in Hd as [_ Hd]. revert Hd. apply forallb_impl.
      intros c Hc. now rewrite isdigit_char_not_sep.
    - destruct (_INT_OR_WHOLE_FLOAT_fullmatch (strip s)) eqn:Hm; [|discriminate].
      apply fullmatch_spec in Hm as [[_ Hall] | (d & z & E & _ & Hd2 & _ & Hz)].
      + revert Hall. apply forallb_impl. intros c Hc.
        now rewrite re_digit_not_sep.
      + rewrite E, forallb_app. simpl.
        rewrite (forallb_impl _ (fun c => negb (is_list_sep c)) _
                   (fun c Hc => eq_trans (f_equal negb (re_digit_not_sep c Hc))
                                         eq_refl) Hd2).
        rewrite (forallb_impl _ (fun c => negb (is_list_sep c)) _
                   (fun c Hc => eq_trans (f_equal negb (zero_not_sep c Hc))
                                         eq_refl) Hz).
        reflexivity. }
  rewrite Es, !forallb_app, Hmid.
  rewrite (forallb_impl _ (fun c => negb (is_list_sep c)) _
             (fun c Hc => eq_trans (f_equal negb (isspace_not_sep c Hc)) eq_refl) Hl).
  rewrite (forallb_impl _ (fun c => negb (is_list_sep c)) _
             (fun c Hc => eq_trans (f_equal negb (isspace_not_sep c Hc)) eq_refl) Hr).
  reflexivity.
Qed.

Lemma normalize_first_valid (s t : str) :
  normalize_numeric_token (Some s) = Some t ->
  first_valid_numeric_from_list (Some s) = Some t.
Proof.
  intros H. unfold first_valid_numeric_from_list.
  rewrite (re_split_no_sep _ _ (normalize_no_sep _ H)). simpl. now rewrite H.
Qed.

(** X2. Every answer of the normaliser is a non-empty all-digit string and is
    its own normal form; blanks around the input do not matter. *)
Theorem normalize_numeric_token_normal_form (s : str) :
  normalize_numeric_token (Some (strip s)) = normalize_numeric_token (Some s) /\
  forall t, normalize_numeric_token (Some s) = Some t ->
            isdigit t = true /\ normalize_numeric_token (Some t) = Some t.
Proof.
  split; [apply normalize_strip|]. intros t H.
  pose proof (normalize_isdigit _ H) as Hd. split; [exact Hd|].
  now apply normalize_fixed.
Qed.

Lemma normalize_numeric_token_normal_form_witness :
  isdigit (lit "182") = true /\
  normalize_numeric_token (Some (lit "182")) = Some (lit "182").
Proof.
  apply (proj2 (normalize_numeric_token_normal_form (lit " 182.00 ")) (lit "182")).
  reflexivity.
Defined.

(** X3. The second attempt of the resolver, on the whole trimmed string, never
    succeeds where the list attempt has failed: a string that normalises
    holds no separator, so it is the only piece of its list. *)
Theorem whole_string_attempt_is_redundant (s : str) :
  (first_valid_numeric_from_list (Some s) = None ->
   normalize_numeric_token (Some s) = None) /\
  (forall cell, side_token cell
                = first_valid_numeric_from_list
                    (Some (strip (notna_or_empty cell)))).
Proof.
  split.
  - intros H. destruct (normalize_numeric_token (Some s)) as [t|] eqn:E;
      [|reflexivity].
    rewrite (normalize_first_valid _ E) in H. discriminate.
  - intros cell. unfold side_token.
    destruct (first_valid_numeric_from_list _) as [t|] eqn:E1; [reflexivity|].
    destruct (normalize_numeric_token _) as [t|] eqn:E2; [|reflexivity].
    rewrite (normalize_first_valid _ E2) in E1. discriminate.
Qed.

Lemma whole_string_attempt_is_redundant_witness :
  normalize_numeric_token (Some (lit "ab;cd")) = None.
Proof.
  apply (proj1 (whole_string_attempt_is_redundant (lit "ab;cd"))). reflexivity.
Defined.

(** ** The resolved code *)

Lemma int_digit_string (t : str) (n : Z) : Py.int t = Some n -> digit_string t.
Proof.
  unfold Py.int. destruct (nonempty t && forallb re_digit t) eqn:E; [|discriminate].
  intros _. apply andb_prop in E. exact E.
Qed.

Lemma side_value_token (cell : option str) (n : Z) :
  side_value cell = Some n ->
  exists t, side_token cell = Some t /\ Py.int t = Some n /\ digit_string t.
Proof.
  unfold side_value. destruct (side_token cell) as [t|]; [|discriminate].
  intros H. exists t. split; [reflexivity|]. split; [assumption|].
  eapply int_digit_string; eauto.
Qed.

(** The lookup code is the text of one of the two tokens, or empty. *)
Lemma get_lookup_code_choice (code sku : option str) :
  get_lookup_code code sku = [] \/
  (exists n, side_token code = Some (get_lookup_code code sku) /\
             side_value code = Some n) \/
  (exists n, side_token sku = Some (get_lookup_code code sku) /\
             side_value sku = Some n).
Proof.
  rewrite get_lookup_code_sides. cbv zeta.
  destruct (side_value code) as [a|] eqn:Ea, (side_value sku) as [b|] eqn:Eb;
    try (now left).
  - destruct (side_value_token _ Ea) as (tc & -> & _).
    destruct (side_value_token _ Eb) as (ts & -> & _).
    destruct (b <=? a)%Z; [right; left | right; right]; eauto.
  - destruct (side_value_token _ Ea) as (tc & -> & _). right; left; eauto.
  - destruct (side_value_token _ Eb) as (ts & -> & _). right; right; eauto.
Qed.

Lemma get_lookup_code_digits (code sku : option str) :
  get_lookup_code code sku = [] \/ digit_string (get_lookup_code code sku).
Proof.
  destruct (get_lookup_code_choice code sku)
    as [E | [(n & Ht & Hv) | (n & Ht & Hv)]]; [now left | |];
    right; destruct (side_value_token _ Hv) as (t & Ht' & _ & Hd); congruence.
Qed.


(** X5. Exchanging the two cells may change the text of the answer (on equal
    values the code side is preferred) but never its numeric value, and
    never whether there is an answer. *)
Theorem get_lookup_code_swap (code sku : option str) :
  Py.int (get_lookup_code code sku) = Py.int (get_lookup_code sku code) /\
  (get_lookup_code code sku = [] <-> get_lookup_code sku code = []).
Proof.
  rewrite !get_lookup_code_sides. cbv zeta.
  destruct (side_value code) as [a|] eqn:Ea, (side_value sku) as [b|] eqn:Eb.
  - destruct (side_value_token _ Ea) as (tc & -> & Hc & [Hn _]).
    destruct (side_value_token _ Eb) as (ts & -> & Hs & [Hm _]).
    destruct (Z.leb_spec b a), (Z.leb_spec a b); split;
      try tauto; try congruence; try lia;
      try (split; intros ->; discriminate).
    assert (a = b) by lia. congruence.
  - destruct (side_value_token _ Ea) as (tc & -> & _). tauto.
  - destruct (side_value_token _ Eb) as (ts & -> & _). tauto.
  - tauto.
Qed.

Example get_lookup_code_tie :
  get_lookup_code (Some (lit "007")) (Some (lit "7")) = lit "007" /\
  get_lookup_code (Some (lit "7")) (Some (lit "007")) = lit "7".
Proof. split; reflexivity. Qed.




(** A superscript digit passes the normaliser and Stage B, and resolves to
    no code. *)
Example superscript_sku :
  let r := {| Raw.name := None; Raw.code := None;
              Raw.sku := Some [ascii_of_N 178]; Raw.price := NaN;
              Raw.priceType := None; Raw.unit_count := None |} in
  keep_B r = true /\ get_lookup_code (Raw.code r) (Raw.sku r) = [].
Proof. split; reflexivity. Qed.

(** ** The extracted size and unit *)

Lemma digits_value_nonneg (s : str) :
  forallb re_digit s = true -> (0 <= digits_value s)%Z.
Proof.
  unfold digits_value.
  assert (H : forall acc, (0 <= acc)%Z -> forallb re_digit s = true ->
            (0 <= fold_left (fun a c => 10 * a + digit_val c) s acc)%Z).
  { induction s as [|c t IH]; cbn [fold_left forallb]; intros acc Hacc Hs;
      [assumption|].
    apply andb_prop in Hs as [Hc Ht]. apply IH; [|assumption].
    unfold re_digit, between in Hc. apply andb_prop in Hc as [Hlo _].
    apply N.leb_le in Hlo. unfold digit_val. lia. }
  intros Hs. apply H; [lia | assumption].
Qed.

Lemma float_nonneg (g : str) (q : Q) : Py.float g = Some q -> 0 <= q.
Proof.
  unfold Py.float. destruct (span re_digit g) as [ds r] eqn:Es.
  destruct (span_spec _ _ Es) as (_ & Hds & _).
  destruct (nonempty ds); [|discriminate].
  destruct r as [|c fs].
  - intros H; inversion H; subst.
    pose proof (digits_value_nonneg _ Hds). unfold Qle; simpl. lia.
  - destruct (Ascii.eqb c "." && nonempty fs && forallb re_digit fs) eqn:E;
      [|discriminate].
    apply andb_prop in E as [_ Hfs].
    intros H. injection H as <-.
    assert (Hall : forallb re_digit (ds ++ fs) = true)
      by (rewrite forallb_app, Hds, Hfs; reflexivity).
    pose proof (digits_value_nonneg _ Hall) as Hnn.
    set (v := Qmake (digits_value (ds ++ fs))
                    (Pos.pow 10 (Pos.of_nat (List.length fs)))).
    apply Qle_trans with v; [unfold v, Qle; simpl; lia|].
    apply Qle_lteq. right. symmetry. exact (Qred_correct v).
Qed.

Lemma size_token_range (t : str) (num : Q) (unit : str) :
  size_token t num unit -> In unit allowed /\ 0 <= num.
Proof.
  intros (g & ls & _ & _ & _ & Hf & _ & Hin). split; [assumption|].
  eapply float_nonneg; eauto.
Qed.

Lemma each_allowed : In (lit "each") allowed.
Proof. simpl. auto 10. Qed.

Lemma extract_size_and_unit_unit_size (name : option str) :
  In (snd (extract_size_and_unit name)) allowed /\
  0 <= snd (fst (extract_size_and_unit name)).
Proof.
  destruct name as [name|]; [|split; [apply each_allowed | discriminate]].
  rewrite extract_size_and_unit_eq.
  destruct (rule1_code (split (strip name))) as [[[n s] u]|] eqn:E1.
  - apply rule1_iff in E1 as (ws & t & e & num & unit & _ & _ & Ht & E).
    inversion E; subst. now apply size_token_range in Ht.
  - destruct (rule2_code (split (strip name))) as [[[n s] u]|] eqn:E2.
    + apply rule2_iff in E2 as (ws & t & num & unit & _ & Ht & E).
      inversion E; subst. now apply size_token_range in Ht.
    + split; [apply each_allowed | discriminate].
Qed.

(** X7. Whatever the name is, the unit returned is one of the vocabulary and
    the size is not negative; a name made of blanks only (the empty name
    included) comes back unchanged with size 1 and unit "each". *)
Theorem extract_size_and_unit_range :
  (forall name : option str,
     In (snd (extract_size_and_unit name)) allowed /\
     0 <= snd (fst (extract_size_and_unit name))) /\
  (forall name : str,
     forallb isspace name = true ->
     extract_size_and_unit (Some name) = (Some name, 1, lit "each")).
Proof.
  split; [exact extract_size_and_unit_unit_size|].
  intros name H. apply strip_nil_iff in H.
  rewrite extract_size_and_unit_eq, H. reflexivity.
Qed.

Lemma extract_size_and_unit_range_witness :
  extract_size_and_unit (Some (lit "   ")) = (Some (lit "   "), 1, lit "each").
Proof.
  apply (proj2 extract_size_and_unit_range (lit "   ")). reflexivity.
Defined.

(** ** The rounded price *)









(** ** The rows of the output *)

Lemma mapM_Forall2 {A B} (f : A -> result B) (l : list A) (bs : list B) :
  mapM f l = Ok bs -> Forall2 (fun a b => f a = Ok b) l bs.
Proof.
  revert bs; induction l as [|a l IH]; simpl; intros bs H.
  - inversion H. constructor.
  - destruct (f a) as [b|e] eqn:Ea; simpl in H; [|discriminate].
    destruct (mapM f l) as [bs'|e] eqn:El; simpl in H; [|discriminate].
    inversion H; subst. constructor; auto.
Qed.

Lemma Forall2_In_r {A B} (R : A -> B -> Prop) (l : list A) (l' : list B) (b : B) :
  Forall2 R l l' -> In b l' -> exists a, In a l /\ R a b.
Proof.
  induction 1 as [|a0 b0 l l' H0 _ IH]; intros Hin; [destruct Hin|].
  destruct Hin as [<- | Hin].
  - exists a0. split; [now left | assumption].
  - destruct (IH Hin) as (a & Ha & HR). exists a. split; [now right | assumption].
Qed.

Lemma Forall2_In_l {A B} (R : A -> B -> Prop) (l : list A) (l' : list B) (a : A) :
  Forall2 R l l' -> In a l -> exists b, In b l' /\ R a b.
Proof.
  induction 1 as [|a0 b0 l l' H0 _ IH]; intros Hin; [destruct Hin|].
  destruct Hin as [<- | Hin].
  - exists b0. split; [now left | assumption].
  - destruct (IH Hin) as (b & Hb & HR). exists b. split; [now right | assumption].
Qed.

Lemma Forall2_length_eq {A B} (R : A -> B -> Prop) (l : list A) (l' : list B) :
  Forall2 R l l' -> List.length l = List.length l'.
Proof. induction 1; simpl; congruence. Qed.

Lemma enumerate_from_length {A} (l : list A) (start : nat) :
  List.length (enumerate_from start l) = List.length l.
Proof. revert start; induction l; simpl; intros; [reflexivity | now rewrite IHl]. Qed.

Lemma map_snd_enumerate_from {A} (l : list A) (start : nat) :
  map snd (enumerate_from start l) = l.
Proof. revert start; induction l; simpl; intros; [reflexivity | now rewrite IHl]. Qed.

Lemma stage_G_length (l : list Canon.t) :
  (List.length (stage_G l) <= List.length l)%nat.
Proof.
  unfold stage_G. rewrite length_map.
  eapply Nat.le_trans; [apply filter_length_le|].
  unfold enumerate. now rewrite enumerate_from_length.
Qed.

Lemma stage_AB_In (rows0 : list Raw.t) (r : Raw.t) :
  In r (stage_B (stage_A rows0)) <->
  In r rows0 /\
  contains_case_or_dozen (astype_str (Raw.name r)) = false /\
  ~ dropped_by_B r.
Proof.
  assert (E : stage_B (stage_A rows0) = filter keep_B (stage_A rows0))
    by apply filter_filter.
  rewrite E, filter_In, keep_B_iff. unfold stage_A.
  rewrite filter_In, negb_true_iff. tauto.
Qed.

(** What [derive] puts in a record. *)
Lemma derive_fields (u : bool) (r : Raw.t) (o : Canon.t) :
  derive u r = Ok o ->
  retail_round (markup (Raw.price r)) = Ok (Canon.cost_price_per_unit o) /\
  Canon.cost_unit o = map_cost_unit (Raw.priceType r) /\
  Canon.lookup_code o = get_lookup_code (Raw.code r) (Raw.sku r) /\
  Canon.name o = fst (fst (extract_size_and_unit (Raw.name r))) /\
  Canon.size_uom o = snd (extract_size_and_unit (Raw.name r)) /\
  Canon.alcoholic o = false /\
  let size := snd (fst (extract_size_and_unit (Raw.name r))) in
  let unit_count := if u then Raw.unit_count r else None in
  let pk := str_eqb (Canon.size_uom o) (lit "pk")
            || str_eqb (Canon.size_uom o) (lit "pack") in
  Canon.size o = (if pk then 1 else size) /\
  Canon.unit_count o =
    (if pk && isna unit_count then Some (round_half_even size) else unit_count).
Proof.
  unfold derive.
  destruct (retail_round (markup (Raw.price r))) as [cost|e]; simpl; [|discriminate].
  destruct (extract_size_and_unit (Raw.name r)) as [[cleaned size] uom].
  intros H; inversion H; subst; simpl. repeat split; reflexivity.
Qed.

(** The shape of a run that returns, row by row. *)
Lemma process_mapped_items_rows (df : DataFrame) (out : list Canon.t) :
  process_mapped_items df = Ok out ->
  exists derived,
    Forall2 (fun r o => derive (has_column df "unit_count") r = Ok o)
            (stage_B (stage_A (rows df))) derived /\
    out = stage_G (stage_F derived).
Proof.
  intros H. apply process_mapped_items_Ok in H as (derived & Hm & ->).
  exists derived. split; [now apply mapM_Forall2 | reflexivity].
Qed.

(** X11. The run never invents a record and never lets a bulk pack through:
    the output has at most as many records as the input has rows, and
    every record comes from a row whose name holds neither "case" nor
    "dozen", which Stage B keeps, and carries that row's resolved code,
    cost unit and rounded price. *)
Theorem process_mapped_items_provenance (df : DataFrame) (out : list Canon.t) :
  process_mapped_items df = Ok out ->
  (List.length out <= List.length (rows df))%nat /\
  forall o, In o out ->
    exists r, In r (rows df) /\
      contains_case_or_dozen (astype_str (Raw.name r)) = false /\
      ~ dropped_by_B r /\
      Canon.lookup_code o = get_lookup_code (Raw.code r) (Raw.sku r) /\
      Canon.cost_unit o = map_cost_unit (Raw.priceType r) /\
      retail_round (markup (Raw.price r)) = Ok (Canon.cost_price_per_unit o).
Proof.
  intros H. apply process_mapped_items_rows in H as (derived & HF & ->). split.
  - eapply Nat.le_trans; [apply stage_G_length|].
    unfold stage_F. eapply Nat.le_trans; [apply filter_length_le|].
    rewrite <- (Forall2_length_eq HF).
    unfold stage_B, stage_A.
    eapply Nat.le_trans; [apply filter_length_le|].
    eapply Nat.le_trans; apply filter_length_le.
  - intros o Hin. apply stage_G_incl, stage_F_In in Hin as [Hin _].
    destruct (Forall2_In_r _ HF Hin) as (r & Hr & Hd).
    apply stage_AB_In in Hr as (Hr & Hn & Hb).
    apply derive_fields in Hd as (Hp & Hu & Hc & _).
    exists r. auto 10.
Qed.

Lemma process_mapped_items_provenance_witness :
  exists out, process_mapped_items example_frame = Ok out /\
              (List.length out <= 4)%nat.
Proof.
  eexists. split; [vm_compute; reflexivity|].
  apply (proj1 (@process_mapped_items_provenance example_frame _ eq_refl)).
Defined.

Lemma map_cost_unit_values (x : option str) :
  In (map_cost_unit x) [lit "each"; lit "lb"; []].
Proof.
  unfold map_cost_unit.
  destruct (existsb _ _); [simpl; auto|].
  destruct (existsb _ _); simpl; auto.
Qed.

Lemma derive_invariants (u : bool) (r : Raw.t) (o : Canon.t) :
  derive u r = Ok o ->
  Canon.alcoholic o = false /\
  In (Canon.cost_unit o) [lit "each"; lit "lb"; []] /\
  In (Canon.size_uom o) allowed /\
  0 <= Canon.size o /\
  (Canon.size_uom o = lit "pk" \/ Canon.size_uom o = lit "pack" ->
   Canon.size o = 1 /\ Canon.unit_count o <> None).
Proof.
  intros H. apply derive_fields in H
    as (_ & Hcu & _ & _ & Hu & Ha & Hs & Hc).
  cbv zeta in Hs, Hc.
  destruct (extract_size_and_unit_unit_size (Raw.name r)) as [Hin Hnn].
  split; [exact Ha|]. split; [rewrite Hcu; apply map_cost_unit_values|].
  split; [now rewrite Hu|]. split.
  - rewrite Hs. destruct (_ || _); [discriminate | exact Hnn].
  - intros Hpk.
    assert (E : str_eqb (Canon.size_uom o) (lit "pk")
                || str_eqb (Canon.size_uom o) (lit "pack") = true).
    { destruct Hpk as [-> | ->]; reflexivity. }
    rewrite E in Hs, Hc. split; [exact Hs|]. rewrite Hc. simpl.
    destruct (isna _) eqn:Ei; [discriminate|].
    destruct (if u then Raw.unit_count r else None); [discriminate|].
    discriminate.
Qed.

(** X12. Every record of the output has [alcoholic] false, a cost unit among
    "each", "lb" and the empty string, a size unit of the vocabulary and a
    size that is not negative; a record whose size unit is "pk" or "pack"
    has size 1 and a unit count. *)
Theorem process_mapped_items_record_invariants (df : DataFrame) (out : list Canon.t) :
  process_mapped_items df = Ok out ->
  Forall (fun o =>
            Canon.alcoholic o = false /\
            In (Canon.cost_unit o) [lit "each"; lit "lb"; []] /\
            In (Canon.size_uom o) allowed /\
            0 <= Canon.size o /\
            (Canon.size_uom o = lit "pk" \/ Canon.size_uom o = lit "pack" ->
             Canon.size o = 1 /\ Canon.unit_count o <> None)) out.
Proof.
  intros H. apply process_mapped_items_rows in H as (derived & HF & ->).
  apply Forall_forall. intros o Hin.
  apply stage_G_incl, stage_F_In in Hin as [Hin _].
  destruct (Forall2_In_r _ HF Hin) as (r & _ & Hd).
  exact (derive_invariants _ _ Hd).
Qed.

Lemma process_mapped_items_record_invariants_witness :
  exists out,
    process_mapped_items example_frame = Ok out /\
    Forall (fun o =>
              Canon.size_uom o = lit "pk" \/ Canon.size_uom o = lit "pack" ->
              Canon.size o = 1 /\ Canon.unit_count o <> None) out.
Proof.
  eexists. split; [vm_compute; reflexivity|].
  eapply Forall_impl;
    [|apply (@process_mapped_items_record_invariants example_frame _ eq_refl)].
  intros o H. apply H.
Defined.

(** The pack count of "Tea 20pk" is taken from the name when the frame has
    no [unit_count] column. *)
Example pack_count_from_name :
  exists o1 o2,
    process_mapped_items example_frame = Ok [o1; o2] /\
    Canon.name o2 = Some (lit "Tea") /\ Canon.size_uom o2 = lit "pk" /\
    Canon.size o2 = 1 /\ Canon.unit_count o2 = Some 20%Z.
Proof.
  eexists _, _. split; [vm_compute; reflexivity|]. repeat split; reflexivity.
Qed.



(** ** Deduplication *)

Lemma winner_of_distinct (l : list Canon.t) (i : nat) (o : Canon.t) :
  NoDup (map Canon.lookup_code l) -> nth_error l i = Some o -> winner l i o.
Proof.
  intros Hnd Hn. split; [exact Hn|]. intros j o' Hj Hc.
  assert (E : j = i).
  { assert (Hi : (i < List.length (map Canon.lookup_code l))%nat).
    { rewrite length_map. apply nth_error_Some. congruence. }
    assert (Hj' : (j < List.length (map Canon.lookup_code l))%nat).
    { rewrite length_map. apply nth_error_Some. congruence. }
    apply (proj1 (NoDup_nth_error _) Hnd j i Hj').
    rewrite !nth_error_map, Hj, Hn. simpl. now rewrite Hc. }
  subst j. assert (o' = o) by congruence. subst o'.
  split; [apply flt_irrefl | lia].
Qed.

Lemma filter_all {A} (p : A -> bool) (l : list A) :
  (forall a, In a l -> p a = true) -> filter p l = l.
Proof.
  induction l as [|a l IH]; simpl; intros H; [reflexivity|].
  rewrite (H a (or_introl eq_refl)), IH; [reflexivity|].
  intros; apply H; now right.
Qed.

Lemma stage_G_of_distinct (l : list Canon.t) :
  NoDup (map Canon.lookup_code l) -> stage_G l = l.
Proof.
  intros Hnd. unfold stage_G. rewrite filter_all.
  - apply map_snd_enumerate_from.
  - intros [i o] Hin.
    assert (Hk : In (i, o)
                   (filter (fun io => (_rank l (fst io) (snd io) =? 1)%nat)
                           (enumerate l))).
    { apply kept_iff_winner. apply winner_of_distinct; [assumption|].
      now apply In_enumerate. }
    now apply filter_In in Hk.
Qed.

(** X14. Stage G loses nothing when the codes are pairwise different, and a
    second pass of Stage G changes nothing. *)
Theorem stage_G_idempotent (l : list Canon.t) :
  (NoDup (map Canon.lookup_code l) -> stage_G l = l) /\
  stage_G (stage_G l) = stage_G l.
Proof.
  split; [apply stage_G_of_distinct|].
  apply stage_G_of_distinct, stage_G_NoDup.
Qed.

Lemma stage_G_idempotent_witness :
  let rec c := {| Canon.cost_price_per_unit := NaN;
                  Canon.cost_unit := []; Canon.lookup_code := c;
                  Canon.name := None; Canon.size := 1;
                  Canon.size_uom := lit "each";
                  Canon.unit_count := None; Canon.alcoholic := false |} in
  stage_G [rec (lit "1"); rec (lit "2")] = [rec (lit "1"); rec (lit "2")].
Proof.
  intros rec. apply (proj1 (stage_G_idempotent _)).
  repeat constructor; simpl; intuition discriminate.
Defined.

Lemma stage_G_codes (l : list Canon.t) (c : str) :
  In c (map Canon.lookup_code (stage_G l)) <-> In c (map Canon.lookup_code l).
Proof.
  rewrite !in_map_iff. split.
  - intros (o & Hc & Hin). exists o. split; [assumption|].
    now apply stage_G_incl.
  - intros (o & Hc & Hin).
    destruct (winner_exists l o Hin) as (i & w & Hw & Hcw).
    exists w. split; [congruence|].
    unfold stage_G. apply in_map_iff. exists (i, w). split; [reflexivity|].
    now apply kept_iff_winner.
Qed.

(** X15. No code is lost: the lookup codes of the output are exactly the
    non-empty codes that the resolver gives for the rows that pass Stages A
    and B. *)
Theorem process_mapped_items_codes (df : DataFrame) (out : list Canon.t) :
  process_mapped_items df = Ok out ->
  forall c, In c (map Canon.lookup_code out) <->
            c <> [] /\
            exists r, In r (stage_B (stage_A (rows df))) /\
                      get_lookup_code (Raw.code r) (Raw.sku r) = c.
Proof.
  intros H c. apply process_mapped_items_rows in H as (derived & HF & ->).
  rewrite stage_G_codes. rewrite in_map_iff. split.
  - intros (o & Hc & Hin). apply stage_F_In in Hin as [Hin Hne].
    destruct (Forall2_In_r _ HF Hin) as (r & Hr & Hd).
    apply derive_fields in Hd as (_ & _ & Hcode & _).
    split.
    + intros ->. apply Hne. now rewrite Hc.
    + exists r. split; [assumption | congruence].
  - intros (Hne & r & Hr & Hc).
    destruct (Forall2_In_l _ HF Hr) as (o & Ho & Hd).
    apply derive_fields in Hd as (_ & _ & Hcode & _).
    exists o. split; [congruence|]. apply stage_F_In. split; [assumption|].
    rewrite Hcode, Hc.
    destruct (get_lookup_code_digits (Raw.code r) (Raw.sku r)) as [E | [_ Hd]].
    + congruence.
    + rewrite Hc in Hd.
      now rewrite (strip_fixed (digit_string_no_blank_ends c Hd)).
Qed.

Lemma process_mapped_items_codes_witness :
  exists out, process_mapped_items example_frame = Ok out /\
              In (lit "007") (map Canon.lookup_code out).
Proof.
  eexists. split; [vm_compute; reflexivity|].
  apply (proj2 (@process_mapped_items_codes example_frame _ eq_refl (lit "007"))).
  split; [discriminate|].
  eexists. split; [vm_compute; right; right; right; left; reflexivity|].
  reflexivity.
Defined.

(** ** Missing columns *)


(** ** The feed file *)

Lemma csv_lookup_code_inj (a b : str) :
  csv_lookup_code a = csv_lookup_code b -> a = b.
Proof.
  unfold csv_lookup_code. simpl. intros H. inversion H as [H'].
  now apply app_inj_tail in H' as [-> _].
Qed.

Lemma NoDup_map_injective {A B} (f : A -> B) (l : list A) :
  (forall a b, f a = f b -> a = b) -> NoDup l -> NoDup (map f l).
Proof.
  intros Hinj. induction 1 as [|a l Hn _ IH]; simpl; constructor; [|exact IH].
  intros Hin. apply in_map_iff in Hin as (b & E & Hb).
  apply Hinj in E. now subst.
Qed.

Lemma df_csv_codes (l : list Canon.t) :
  map Canon.lookup_code (df_csv l)
  = map csv_lookup_code (map Canon.lookup_code l).
Proof. unfold df_csv. rewrite !map_map. reflexivity. Qed.

Lemma output_code_digits (df : DataFrame) (out : list Canon.t) (o : Canon.t) :
  process_mapped_items df = Ok out -> In o out ->
  digit_string (Canon.lookup_code o).
Proof.
  intros H Hin. apply process_mapped_items_rows in H as (derived & HF & ->).
  apply stage_G_incl, stage_F_In in Hin as [Hin Hne].
  destruct (Forall2_In_r _ HF Hin) as (r & _ & Hd).
  apply derive_fields in Hd as (_ & _ & Hc & _).
  rewrite Hc in *.
  destruct (get_lookup_code_digits (Raw.code r) (Raw.sku r)) as [E | Hd];
    [|exact Hd].
  rewrite E in Hne. now contradiction Hne.
Qed.

(** X17. The frame written to the CSV file has the rows of the output, with
    every column but [lookup_code] unchanged; each of its codes is the
    output's code, a non-empty string of the digits 0..9, between [="] and
    ["], so leading zeros reach the file; the wrapped codes are pairwise
    different. *)
Theorem save_outputs_csv_codes (df : DataFrame) (out : list Canon.t) :
  process_mapped_items df = Ok out ->
  Forall2 (fun o o' =>
             set_lookup_code o' (Canon.lookup_code o) = o /\
             digit_string (Canon.lookup_code o) /\
             Canon.lookup_code o'
             = lit "=" ++ dquote :: Canon.lookup_code o ++ [dquote])
          out (df_csv out) /\
  NoDup (map Canon.lookup_code (df_csv out)).
Proof.
  intros H. split.
  - assert (Hd : forall o, In o out -> digit_string (Canon.lookup_code o))
      by (intros o; now apply (output_code_digits df)).
    clear H. unfold df_csv. induction out as [|o out IH]; simpl; constructor.
    + split; [now destruct o|]. split; [apply Hd; now left | reflexivity].
    + apply IH. intros o' Ho'. apply Hd. now right.
  - rewrite df_csv_codes. apply NoDup_map_injective.
    + intros a b. apply csv_lookup_code_inj.
    + apply process_mapped_items_Ok in H as (derived & _ & ->).
      apply stage_G_NoDup.
Qed.

Lemma save_outputs_csv_codes_witness :
  exists out, process_mapped_items example_frame = Ok out /\
    map Canon.lookup_code (df_csv out)
    = [lit "=" ++ dquote :: lit "500" ++ [dquote];
       lit "=" ++ dquote :: lit "007" ++ [dquote]] /\
    NoDup (map Canon.lookup_code (df_csv out)).
Proof.
  eexists. split; [vm_compute; reflexivity|]. split; [reflexivity|].
  apply (proj2 (@save_outputs_csv_codes example_frame _ eq_refl)).
Defined.

(** ** Paging *)

Section Paging.

Variable A : Type.
Variable db : list A.
Variable server : nat -> nat -> list A.
Hypothesis server_serves : serves db server.

Lemma chunk_empty (offset limit : nat) :
  (1 <= limit)%nat -> firstn limit (skipn offset db) = [] -> skipn offset db = [].
Proof.
  intros Hl H. destruct (skipn offset db) as [|a l]; [reflexivity|].
  destruct limit; [lia | discriminate].
Qed.

Lemma chunk_short (offset limit : nat) :
  (List.length (firstn limit (skipn offset db)) < limit)%nat ->
  firstn limit (skipn offset db) = skipn offset db.
Proof.
  intros H. apply firstn_all2. rewrite length_firstn in H. lia.
Qed.

Lemma chunk_full (offset limit : nat) :
  skipn offset db
  = firstn limit (skipn offset db) ++ skipn (offset + limit) db.
Proof.
  rewrite (Nat.add_comm offset limit), <- skipn_skipn.
  symmetry. apply firstn_skipn.
Qed.

Lemma iter_all_items_from_complete (batch_size : nat) :
  (1 <= batch_size <= 1000)%nat ->
  forall fuel offset,
    (List.length (skipn offset db) < fuel)%nat ->
    iter_all_items_from server fuel offset batch_size = Some (skipn offset db).
Proof.
  intros Hb. induction fuel as [|fuel IH]; intros offset Hf; [lia|].
  cbn [iter_all_items_from]. cbv zeta. unfold get_items.
  replace (Nat.min batch_size 1000) with batch_size by lia.
  rewrite !server_serves.
  set (chunk := firstn batch_size (skipn offset db)).
  destruct (nonempty chunk) eqn:En; cbn [negb].
  - destruct (List.length chunk <? batch_size)%nat eqn:El.
    + apply Nat.ltb_lt in El. f_equal. now apply chunk_short.
    + apply Nat.ltb_ge in El. rewrite IH.
      * cbn [option_map]. f_equal. symmetry. apply chunk_full.
      * unfold chunk in El. rewrite length_firstn in El.
        rewrite !length_skipn in *. lia.
  - f_equal. symmetry.
    apply chunk_empty with (limit := batch_size); [lia|].
    fold chunk. now destruct chunk.
Qed.

Lemma iter_all_items_from_capped (batch_size fuel : nat) :
  (1000 < batch_size)%nat ->
  iter_all_items_from server (S fuel) 0 batch_size = Some (firstn 1000 db).
Proof.
  intros Hb. cbn [iter_all_items_from]. cbv zeta. unfold get_items.
  replace (Nat.min batch_size 1000) with 1000%nat by lia.
  rewrite !server_serves. cbn [skipn]. set (chunk := firstn 1000 db).
  assert (El : (List.length chunk <? batch_size)%nat = true).
  { apply Nat.ltb_lt. unfold chunk. rewrite length_firstn. lia. }
  rewrite El. destruct chunk; reflexivity.
Qed.

Lemma iter_all_items_from_zero (fuel : nat) :
  iter_all_items_from server (S fuel) 0 0 = Some [].
Proof.
  cbn [iter_all_items_from]. cbv zeta. unfold get_items.
  rewrite !server_serves. reflexivity.
Qed.

End Paging.

(** X18. Against an API that serves the slices of one list, with a batch size
    between 1 and 1000, [iter_all_items] yields the whole list, in order
    and once, within one request more than the list has items. *)
Theorem iter_all_items_complete (A : Type) (db : list A)
    (server : nat -> nat -> list A) (fuel batch_size : nat) :
  serves db server ->
  (1 <= batch_size <= 1000)%nat ->
  (List.length db < fuel)%nat ->
  iter_all_items server fuel batch_size = Some db.
Proof.
  intros Hs Hb Hf. unfold iter_all_items.
  now rewrite (iter_all_items_from_complete Hs Hb).
Qed.

Lemma iter_all_items_complete_witness :
  iter_all_items (fun offset limit => firstn limit (skipn offset [1; 2; 3; 4; 5]%nat))
                 6 2
  = Some [1; 2; 3; 4; 5]%nat.
Proof.
  apply iter_all_items_complete with (db := [1; 2; 3; 4; 5]%nat).
  - intros offset limit. reflexivity.
  - lia.
  - simpl. lia.
Defined.

(** X19. With a batch size above the cap of 1000, the limit sent is 1000 while
    the page is compared with the batch size: the first page always looks
    short, and [iter_all_items] stops after it with the first 1000 items
    only.  With a batch size of 0 it yields nothing. *)
Theorem iter_all_items_capped (A : Type) (db : list A)
    (server : nat -> nat -> list A) (fuel batch_size : nat) :
  serves db server ->
  ((1000 < batch_size)%nat ->
   iter_all_items server (S fuel) batch_size = Some (firstn 1000 db)) /\
  iter_all_items server (S fuel) 0 = Some [].
Proof.
  intros Hs. split.
  - intros Hb. now apply iter_all_items_from_capped.
  - now apply iter_all_items_from_zero with (db := db).
Qed.

Lemma iter_all_items_capped_witness :
  iter_all_items (fun offset limit => firstn limit (skipn offset (repeat tt 1500)))
                 1 2000
  = Some (firstn 1000 (repeat tt 1500)).
Proof.
  apply (proj1 (@iter_all_items_capped unit (repeat tt 1500) _ 0 2000
                  (fun offset limit => eq_refl))).
  lia.
Defined.

Section OrderPaging.

Variable order : Type.
Variable createdTime : order -> Z.
Variable server : Z -> Z -> nat -> nat -> list order.

Lemma iter_orders_in_range_from_window (start_ms end_ms : Z) (batch_size : nat) :
  forall fuel offset ys,
    iter_orders_in_range_from createdTime server fuel offset start_ms end_ms
                              batch_size = Some ys ->
    Forall (fun o => (start_ms <= createdTime o < end_ms)%Z) ys.
Proof.
  assert (Hfil : forall l,
    Forall (fun o => (start_ms <= createdTime o < end_ms)%Z)
           (filter (in_range createdTime start_ms end_ms) l)).
  { intros l. apply Forall_forall. intros o Ho.
    apply filter_In in Ho as [_ Ho]. unfold in_range in Ho.
    apply andb_prop in Ho as [H1 H2].
    apply Z.leb_le in H1. apply Z.ltb_lt in H2. lia. }
  induction fuel as [|fuel IH]; intros offset ys; [discriminate|].
  cbn [iter_orders_in_range_from]. cbv zeta.
  set (orders := server start_ms end_ms offset (Nat.min batch_size 1000)).
  destruct (nonempty orders); cbn [negb].
  - destruct (List.length orders <? batch_size)%nat.
    + intros H; inversion H; subst. apply Hfil.
    + destruct (iter_orders_in_range_from _ _ fuel _ _ _ _) as [rest|] eqn:Er;
        [|discriminate].
      intros H; inversion H; subst. apply Forall_app. split; [apply Hfil|].
      eapply IH; eauto.
  - intros H; inversion H. constructor.
Qed.

Variable db : list order.

Lemma iter_orders_in_range_from_complete (start_ms end_ms : Z) (batch_size : nat) :
  serves db (server start_ms end_ms) ->
  (1 <= batch_size <= 1000)%nat ->
  forall fuel offset,
    (List.length (skipn offset db) < fuel)%nat ->
    iter_orders_in_range_from createdTime server fuel offset start_ms end_ms
                              batch_size
    = Some (filter (in_range createdTime start_ms end_ms) (skipn offset db)).
Proof.
  intros Hs Hb. induction fuel as [|fuel IH]; intros offset Hf; [lia|].
  cbn [iter_orders_in_range_from]. cbv zeta.
  replace (Nat.min batch_size 1000) with batch_size by lia.
  rewrite !Hs.
  set (chunk := firstn batch_size (skipn offset db)).
  destruct (nonempty chunk) eqn:En; cbn [negb].
  - destruct (List.length chunk <? batch_size)%nat eqn:El.
    + apply Nat.ltb_lt in El. do 2 f_equal. now apply chunk_short.
    + apply Nat.ltb_ge in El. rewrite IH.
      * cbn [option_map]. f_equal. rewrite <- filter_app. f_equal.
        symmetry. apply chunk_full.
      * unfold chunk in El. rewrite length_firstn in El.
        rewrite !length_skipn in *. lia.
  - assert (E : skipn offset db = []).
    { apply chunk_empty with (limit := batch_size); [lia|].
      fold chunk. now destruct chunk. }
    now rewrite E.
Qed.

End OrderPaging.

(** X20. Whatever the API answers, [iter_orders_in_range] yields only orders
    created in the window [start_ms <= createdTime < end_ms]; against an API
    that serves the slices of one list, with a batch size between 1 and
    1000, it yields exactly the orders of the list that are in the window,
    in order. *)
Theorem iter_orders_in_range_window (order : Type) (createdTime : order -> Z)
    (server : Z -> Z -> nat -> nat -> list order)
    (start_ms end_ms : Z) (fuel batch_size : nat) :
  (forall ys,
     iter_orders_in_range createdTime server fuel start_ms end_ms batch_size
     = Some ys ->
     Forall (fun o => (start_ms <= createdTime o < end_ms)%Z) ys) /\
  (forall db,
     serves db (server start_ms end_ms) ->
     (1 <= batch_size <= 1000)%nat ->
     (List.length db < fuel)%nat ->
     iter_orders_in_range createdTime server fuel start_ms end_ms batch_size
     = Some (filter (in_range createdTime start_ms end_ms) db)).
Proof.
  split.
  - intros ys. apply iter_orders_in_range_from_window.
  - intros db Hs Hb Hf. unfold iter_orders_in_range.
    erewrite iter_orders_in_range_from_complete;
      [reflexivity | eassumption | assumption | exact Hf].
Qed.

Lemma iter_orders_in_range_window_witness :
  iter_orders_in_range (fun t : Z => t)
    (fun _ _ offset limit => firstn limit (skipn offset [5; 20; 10; 30]%Z))
    5 10 30 3
  = Some [20; 10]%Z.
Proof.
  apply (proj2 (@iter_orders_in_range_window Z (fun t => t)
                  (fun _ _ offset limit =>
                     firstn limit (skipn offset [5; 20; 10; 30]%Z))
                  10 30 5 3) [5; 20; 10; 30]%Z).
  - intros offset limit. reflexivity.
  - lia.
  - simpl. lia.
Defined.

(** ** Product names *)

Lemma keep_first_In (l : list str) (x : str) : In x (keep_first l) <-> In x l.
Proof.
  induction l as [|a l IH]; simpl; [tauto|].
  rewrite filter_In, IH, negb_true_iff. split.
  - intros [-> | [H _]]; auto.
  - intros [-> | H]; [now left|].
    destruct (str_eqb x a) eqn:E; [left; symmetry; now apply str_eqb_eq | auto].
Qed.

Lemma NoDup_filter {A} (p : A -> bool) (l : list A) :
  NoDup l -> NoDup (filter p l).
Proof.
  induction 1 as [|a l Hn _ IH]; simpl; [constructor|].
  destruct (p a); [|exact IH]. constructor; [|exact IH].
  intros Hin. apply filter_In in Hin as [Hin _]. contradiction.
Qed.

Lemma keep_first_NoDup (l : list str) : NoDup (keep_first l).
Proof.
  induction l as [|a l IH]; simpl; constructor.
  - intros Hin. apply filter_In in Hin as [_ Hin].
    apply negb_true_iff in Hin.
    assert (str_eqb a a = true) by now apply str_eqb_eq. congruence.
  - now apply NoDup_filter.
Qed.

Lemma filter_comm {A} (p q : A -> bool) (l : list A) :
  filter p (filter q l) = filter q (filter p l).
Proof.
  rewrite !filter_filter. apply filter_ext. intros a. apply andb_comm.
Qed.

Lemma keep_first_app (a b : list str) :
  keep_first (a ++ b)
  = keep_first a ++ filter (fun y => negb (in_seen y a)) (keep_first b).
Proof.
  induction a as [|x a IH]; simpl.
  - symmetry. apply filter_all. reflexivity.
  - f_equal. rewrite IH, filter_app. f_equal.
    rewrite filter_filter. apply filter_ext. intros y.
    rewrite negb_orb. apply andb_comm.
Qed.

Section Names.

Variable order : Type.
Variable line_items : order -> list LineItem.

Lemma in_seen_cons (y x : str) (s : list str) :
  in_seen y (x :: s) = str_eqb y x || in_seen y s.
Proof. reflexivity. Qed.

Lemma in_seen_eq (y x : str) (s : list str) :
  str_eqb y x = true -> in_seen x s = true -> in_seen y s = true.
Proof. intros E. apply str_eqb_eq in E. now subst. Qed.

Lemma names_of_line_items_seen (lis : list LineItem) :
  forall s, exists s',
    names_of_line_items (Some s) lis
    = (filter (notin s) (keep_first (flat_map name_of_line_item lis)), Some s') /\
    forall y, in_seen y s'
              = in_seen y s || in_seen y (flat_map name_of_line_item lis).
Proof.
  induction lis as [|li lis IH]; intros s.
  - exists s. split; [reflexivity|]. intros y. now rewrite orb_false_r.
  - cbn [names_of_line_items flat_map]. unfold name_of_line_item at 1 3.
    destruct (py_or (linked_name li) (own_name li)) as [[|c t]|];
      try (exact (IH s)).
    set (name := c :: t). cbn [app keep_first filter].
    destruct (in_seen name s) eqn:Es.
    + destruct (IH s) as (s' & E & Hs'). exists s'. split.
      * rewrite E. f_equal. unfold notin at 2. rewrite Es. cbn [negb].
        rewrite filter_filter. apply filter_ext. intros y. unfold notin.
        destruct (str_eqb y name) eqn:Ey; [|reflexivity].
        now rewrite (@in_seen_eq y name s Ey Es).
      * intros y. rewrite Hs', in_seen_cons.
        destruct (str_eqb y name) eqn:Ey; [|reflexivity].
        now rewrite (@in_seen_eq y name s Ey Es).
    + destruct (IH (name :: s)) as (s' & E & Hs'). exists s'. split.
      * change (names_of_line_items (Some (name :: s)) lis)
          with (names_of_line_items (Some ((name : str) :: s)) lis).
        unfold str in *. rewrite E. unfold notin at 2. rewrite Es. cbn [negb]. do 2 f_equal.
        rewrite filter_filter. apply filter_ext. intros y. unfold notin.
        rewrite in_seen_cons, negb_orb. reflexivity.
      * intros y. rewrite Hs', !in_seen_cons.
        destruct (str_eqb y name), (in_seen y s); reflexivity.
Qed.

Lemma names_of_line_items_all (lis : list LineItem) :
  names_of_line_items None lis = (flat_map name_of_line_item lis, None).
Proof.
  induction lis as [|li lis IH]; [reflexivity|].
  cbn [names_of_line_items flat_map]. unfold name_of_line_item at 1.
  destruct (py_or (linked_name li) (own_name li)) as [[|c t]|];
    try exact IH.
  now rewrite IH.
Qed.

Lemma names_of_orders_seen (orders : list order) :
  forall s,
    names_of_orders line_items (Some s) orders
    = filter (notin s) (keep_first (candidate_names line_items orders)).
Proof.
  induction orders as [|o orders IH]; intros s; [reflexivity|].
  cbn [names_of_orders]. cbv zeta. unfold candidate_names. cbn [flat_map].
  fold (candidate_names line_items orders).
  destruct (line_items o) as [|li lis] eqn:El; cbn [nonempty negb].
  - exact (IH s).
  - destruct (names_of_line_items_seen (li :: lis) s) as (s' & E & Hs').
    rewrite E, IH, keep_first_app, filter_app. f_equal.
    rewrite filter_filter. apply filter_ext. intros y. unfold notin.
    rewrite Hs', negb_orb. apply andb_comm.
Qed.

Lemma names_of_orders_all (orders : list order) :
  names_of_orders line_items None orders = candidate_names line_items orders.
Proof.
  induction orders as [|o orders IH]; [reflexivity|].
  cbn [names_of_orders]. cbv zeta. unfold candidate_names. cbn [flat_map].
  fold (candidate_names line_items orders).
  destruct (line_items o) as [|li lis] eqn:El; cbn [nonempty negb].
  - exact IH.
  - now rewrite names_of_line_items_all, IH.
Qed.

Lemma candidate_names_nonempty (orders : list order) :
  Forall (fun n => nonempty n = true) (candidate_names line_items orders).
Proof.
  apply Forall_forall. intros n Hin. unfold candidate_names in Hin.
  apply in_flat_map in Hin as (o & _ & Hin).
  apply in_flat_map in Hin as (li & _ & Hin).
  unfold name_of_line_item in Hin.
  destruct (py_or (linked_name li) (own_name li)) as [[|c t]|];
    try destruct Hin.
  - now subst.
  - contradiction.
Qed.

End Names.

(** X21. With [unique_only], [iter_product_names] yields the first occurrence
    of every name that a line item carries, in order: no name twice, and
    every carried name once.  Without it, it yields every carried name.  No
    yielded name is empty. *)
Theorem iter_product_names_unique (order : Type)
    (line_items : order -> list LineItem) (orders : list order) :
  let names := candidate_names line_items orders in
  iter_product_names line_items orders true = keep_first names /\
  NoDup (iter_product_names line_items orders true) /\
  (forall n, In n (iter_product_names line_items orders true) <-> In n names) /\
  iter_product_names line_items orders false = names /\
  Forall (fun n => nonempty n = true) names.
Proof.
  intros names.
  assert (E : iter_product_names line_items orders true = keep_first names).
  { unfold iter_product_names. rewrite names_of_orders_seen.
    apply filter_all. reflexivity. }
  split; [exact E|]. rewrite E.
  split; [apply keep_first_NoDup|]. split; [intros n; apply keep_first_In|].
  split; [apply names_of_orders_all | apply candidate_names_nonempty].
Qed.

Example iter_product_names_example :
  let li a b := {| linked_name := a; own_name := b |} in
  let orders :=
    [[li (Some (lit "Rice")) None; li None (Some (lit "Salt"))];
     [];
     [li (Some (lit "")) (Some (lit "Rice")); li None None;
      li (Some (lit "Tea")) (Some (lit "Chai"))]] in
  iter_product_names (fun o => o) orders true
  = [lit "Rice"; lit "Salt"; lit "Tea"] /\
  iter_product_names (fun o => o) orders false
  = [lit "Rice"; lit "Salt"; lit "Rice"; lit "Tea"].
Proof. split; reflexivity. Qed.

(** ** Retries *)

Lemma retryable_raises (s : nat) : retryable s = true -> raises_for_status s = true.
Proof.
  unfold retryable. simpl. rewrite !orb_true_iff, !Nat.eqb_eq.
  intros [-> | [-> | [-> | [-> | [-> | H]]]]]; try reflexivity. discriminate.
Qed.

Lemma request_with_retries_from_bounds (world : list outcome) :
  forall attempt e sl n,
    request_with_retries_from world attempt = Some (e, sl, n) ->
    (1 <= n <= S (MAX_RETRIES - attempt))%nat /\
    List.length sl = (n - 1)%nat /\
    (no_retry_after world -> sl = map backoff (seq (S attempt) (n - 1))) /\
    (forall s, e = Returned s ->
               retryable s = false /\ raises_for_status s = false).
Proof.
  induction world as [|w world IH]; intros attempt e sl n; [discriminate|].
  assert (Hagain : forall delay,
    (MAX_RETRIES <? S attempt)%nat = false ->
    match request_with_retries_from world (S attempt) with
    | Some (e, sleeps, n) => Some (e, delay :: sleeps, S n)
    | None => None
    end = Some (e, sl, n) ->
    (1 <= n <= S (MAX_RETRIES - attempt))%nat /\
    List.length sl = (n - 1)%nat /\
    (no_retry_after world -> delay = backoff (S attempt) ->
     sl = map backoff (seq (S attempt) (n - 1))) /\
    (forall s, e = Returned s ->
               retryable s = false /\ raises_for_status s = false)).
  { intros delay Hlt H. apply Nat.ltb_ge in Hlt.
    destruct (request_with_retries_from world (S attempt))
      as [[[e' sl'] n']|] eqn:Er; [|discriminate].
    inversion H; subst. destruct (IH _ _ _ _ Er) as (Hn & Hl & Hs & He).
    split; [lia|]. split; [simpl; lia|]. split; [|exact He].
    intros Hw ->. rewrite (Hs Hw).
    replace (S n' - 1)%nat with (S (n' - 1)) by lia. reflexivity. }
  assert (Hstop : forall e0,
    Some (e0, @nil Q, 1%nat) = Some (e, sl, n) ->
    (forall s, e0 = Returned s ->
               retryable s = false /\ raises_for_status s = false) ->
    (1 <= n <= S (MAX_RETRIES - attempt))%nat /\
    List.length sl = (n - 1)%nat /\
    (no_retry_after (w :: world) -> sl = map backoff (seq (S attempt) (n - 1))) /\
    (forall s, e = Returned s ->
               retryable s = false /\ raises_for_status s = false)).
  { intros e0 H He. inversion H; subst. repeat split; try lia; try reflexivity;
      apply He; assumption. }
  cbn [request_with_retries_from]. cbv zeta.
  destruct w as [|status retry_after].
  - destruct (MAX_RETRIES <? S attempt)%nat eqn:Hlt.
    + intros H. apply (Hstop _ H). discriminate.
    + intros H. destruct (Hagain _ eq_refl H) as (Hn & Hl & Hs & He).
      repeat split; try lia; try assumption; try (apply He; assumption).
      intros Hw. inversion Hw; subst. now apply Hs.
  - destruct (retryable status) eqn:Hr.
    + destruct (MAX_RETRIES <? S attempt)%nat eqn:Hlt.
      * intros H. apply (Hstop _ H). discriminate.
      * assert (Hback : forall delay,
          (no_retry_after (Response status retry_after :: world) ->
           delay = backoff (S attempt)) ->
          match request_with_retries_from world (S attempt) with
          | Some (e, sleeps, n) => Some (e, delay :: sleeps, S n)
          | None => None
          end = Some (e, sl, n) ->
          (1 <= n <= S (MAX_RETRIES - attempt))%nat /\
          List.length sl = (n - 1)%nat /\
          (no_retry_after (Response status retry_after :: world) ->
           sl = map backoff (seq (S attempt) (n - 1))) /\
          (forall s, e = Returned s ->
                     retryable s = false /\ raises_for_status s = false)).
        { intros delay Hd H. destruct (Hagain _ eq_refl H) as (Hn & Hl & Hs & He).
          repeat split; try lia; try assumption; try (apply He; assumption).
          intros Hw. pose proof (Hd Hw) as Hd'.
          inversion Hw; subst. now apply Hs. }
        destruct retry_after as [[|c t]|].
        { apply Hback. reflexivity. }
        { destruct (isdigit (c :: t)).
          - destruct (Py.int (c :: t)) as [v|].
            + apply Hback. intros Hw. inversion Hw; subst. contradiction.
            + intros H. apply (Hstop _ H). discriminate.
          - apply Hback. reflexivity. }
        { apply Hback. reflexivity. }
    + destruct (raises_for_status status) eqn:Hs.
      * intros H. apply (Hstop _ H). discriminate.
      * intros H. apply (Hstop _ H). intros s Es. inversion Es; subst. auto.
Qed.

Lemma request_with_retries_from_returns (world : list outcome) :
  forall attempt,
    (S (MAX_RETRIES - attempt) <= List.length world)%nat ->
    exists r, request_with_retries_from world attempt = Some r.
Proof.
  induction world as [|w world IH]; intros attempt Hlen; [simpl in Hlen; lia|].
  assert (Hagain : forall delay,
    (MAX_RETRIES <? S attempt)%nat = false ->
    exists r,
      match request_with_retries_from world (S attempt) with
      | Some (e, sleeps, n) => Some (e, delay :: sleeps, S n)
      | None => None
      end = Some r).
  { intros delay Hlt. apply Nat.ltb_ge in Hlt.
    destruct (IH (S attempt)) as ([[e sl] n] & ->); [|eauto].
    unfold MAX_RETRIES in *. cbn [Datatypes.length] in Hlen. lia. }
  cbn [request_with_retries_from]. cbv zeta.
  destruct w as [|status retry_after].
  - destruct (MAX_RETRIES <? S attempt)%nat eqn:Hlt; [eauto | now apply Hagain].
  - destruct (retryable status).
    + destruct (MAX_RETRIES <? S attempt)%nat eqn:Hlt; [eauto|].
      destruct retry_after as [[|c t]|]; try (now apply Hagain).
      destruct (isdigit (c :: t)); [|now apply Hagain].
      destruct (Py.int (c :: t)); [now apply Hagain | eauto].
    + destruct (raises_for_status status); eauto.
Qed.

(** X22. [request_with_retries] makes at most six requests, and six outcomes
    are enough for it to end.  It sleeps once between two requests; when
    no response carries a [Retry-After] header the delays are 1, 2, 4, 8
    and 16 seconds in that order.  The response it returns has a status
    that is neither one of the retried ones nor in 400..599. *)
Theorem request_with_retries_bounded (world : list outcome) :
  ((6 <= List.length world)%nat ->
   exists r, request_with_retries world = Some r) /\
  forall e sl n,
    request_with_retries world = Some (e, sl, n) ->
    (1 <= n <= 6)%nat /\
    List.length sl = (n - 1)%nat /\
    (no_retry_after world -> sl = firstn (n - 1) [1; 2; 4; 8; 16]) /\
    (forall s, e = Returned s ->
               retryable s = false /\ raises_for_status s = false).
Proof.
  split.
  - intros H. now apply request_with_retries_from_returns.
  - intros e sl n H.
    destruct (request_with_retries_from_bounds _ _ H) as (Hn & Hl & Hs & He).
    unfold MAX_RETRIES in Hn.
    split; [lia|]. split; [exact Hl|]. split; [|exact He].
    intros Hw. rewrite (Hs Hw).
    assert (Hk : (n - 1 <= 5)%nat) by lia.
    destruct (n - 1)%nat as [|[|[|[|[|[|k]]]]]]; try reflexivity. lia.
Qed.

Lemma request_with_retries_bounded_witness :
  exists r,
    request_with_retries
      [RequestException; Response 503 None; Response 429 None;
       RequestException; Response 500 None; Response 200 None] = Some r.
Proof.
  apply (proj1 (request_with_retries_bounded _)). simpl. lia.
Defined.

Example request_with_retries_example :
  request_with_retries
    [RequestException; Response 503 None; Response 429 (Some (lit "7"));
     Response 200 None]
  = Some (Returned 200, [1; 2; 7], 4%nat) /\
  request_with_retries (repeat (Response 503 None) 6)
  = Some (HTTPError 503, [1; 2; 4; 8; 16], 6%nat).
Proof. split; reflexivity. Qed.

(** ** Stage A and the unit count *)





Example stage_A_inside_a_word :
  let row n := {| Raw.name := Some n; Raw.code := None; Raw.sku := None;
                  Raw.price := NaN; Raw.priceType := None;
                  Raw.unit_count := None |} in
  stage_A [row (lit "Phone CASE"); row (lit "Showcase tea"); row (lit "Rice");
           row (lit "Half Dozen eggs")]
  = [row (lit "Rice")].
Proof. reflexivity. Qed.

(** X24. The unit count of an output record: a count present in the input is
    never replaced; a missing count, or a frame without the [unit_count]
    column, gives the size read from the name, rounded, for a record whose
    unit is "pk" or "pack", and no count for the other records. *)
Theorem process_mapped_items_unit_count (df : DataFrame) (out : list Canon.t) :
  process_mapped_items df = Ok out ->
  forall o, In o out ->
    exists r, In r (rows df) /\
      Canon.name o = fst (fst (extract_size_and_unit (Raw.name r))) /\
      let given :=
        if has_column df "unit_count" then Raw.unit_count r else None in
      match given with
      | Some n => Canon.unit_count o = Some n
      | None =>
          if in_seen (Canon.size_uom o) [lit "pk"; lit "pack"]
          then Canon.unit_count o
               = Some (round_half_even
                         (snd (fst (extract_size_and_unit (Raw.name r)))))
          else Canon.unit_count o = None
      end.
Proof.
  intros H o Hin.
  apply process_mapped_items_rows in H as (derived & HF & ->).
  apply stage_G_incl, stage_F_In in Hin as [Hin _].
  destruct (Forall2_In_r _ HF Hin) as (r & Hr & Hd).
  apply stage_AB_In in Hr as (Hr & _).
  apply derive_fields in Hd as (_ & _ & _ & Hn & _ & _ & _ & Hc).
  exists r. split; [exact Hr|]. split; [exact Hn|].
  cbv zeta in Hc |- *. rewrite Hc. unfold in_seen. cbn [existsb].
  rewrite orb_false_r.
  destruct (if has_column df "unit_count" then Raw.unit_count r else None);
    cbn [isna].
  - now rewrite andb_false_r.
  - rewrite andb_true_r. now destruct (_ || _).
Qed.

Lemma process_mapped_items_unit_count_witness :
  exists out o, process_mapped_items example_frame = Ok out /\ In o out /\
    exists r, In r (rows example_frame) /\
      Canon.name o = fst (fst (extract_size_and_unit (Raw.name r))).
Proof.
  eexists _, _. split; [vm_compute; reflexivity|]. split; [left; reflexivity|].
  destruct (@process_mapped_items_unit_count example_frame _ eq_refl _
              (or_introl eq_refl)) as (r & Hr & Hn & _).
  exists r. split; [exact Hr | exact Hn].
Defined.


(** ** The cost unit *)

Lemma isspace_lower_char (c : ascii) : isspace (lower_char c) = isspace c.
Proof. destruct c as [[] [] [] [] [] [] [] []]; reflexivity. Qed.

Lemma lower_char_idem (c : ascii) : lower_char (lower_char c) = lower_char c.
Proof. destruct c as [[] [] [] [] [] [] [] []]; reflexivity. Qed.

Lemma lstrip_lower (s : str) : lstrip (lower s) = lower (lstrip s).
Proof.
  induction s as [|c t IH]; simpl; [reflexivity|].
  rewrite isspace_lower_char. now destruct (isspace c).
Qed.

Lemma rev_lower (s : str) : rev (lower s) = lower (rev s).
Proof. unfold lower. symmetry. apply map_rev. Qed.

Lemma strip_lower (s : str) : strip (lower s) = lower (strip s).
Proof.
  unfold strip, rstrip.
  now rewrite lstrip_lower, rev_lower, lstrip_lower, rev_lower.
Qed.

Lemma lower_idem (s : str) : lower (lower s) = lower s.
Proof.
  unfold lower. rewrite map_map. apply map_ext. apply lower_char_idem.
Qed.

(** X25. The cost unit does not depend on blanks around the price type nor on
    its capitals: the price type, the same text trimmed and the same text
    in small letters all map to the same unit.  A missing price type maps
    to the empty unit. *)
Theorem map_cost_unit_insensitive (s : str) :
  map_cost_unit (Some (strip s)) = map_cost_unit (Some s) /\
  map_cost_unit (Some (lower s)) = map_cost_unit (Some s) /\
  map_cost_unit None = [].
Proof.
  unfold map_cost_unit, astype_str. split; [now rewrite strip_idem|].
  split; [now rewrite strip_lower, lower_idem | reflexivity].
Qed.

Example map_cost_unit_examples :
  map_cost_unit (Some (lit "  Fixed_Price ")) = lit "each" /\
  map_cost_unit (Some (lit "PER UNIT")) = lit "lb" /\
  map_cost_unit (Some (lit "variable")) = lit "".
Proof. repeat split; reflexivity. Qed.
